(** * Symbolic shapes: a shallow embedding of
      [torch/fx/experimental/symbolic_shapes.py]

    The development follows the layout of the Python module: outcomes of
    Python calls, the expression substrate (sympy), the [FloorDiv] term,
    the dispatch-mode slot, [PySymInt] and its generated operators, and
    the shape environment [ShapeEnv] with its caches.  *)

From stdpp Require Import base option list gmap sets strings countable pretty.
From Stdlib Require Import ZArith Lia Ascii.

Local Open Scope Z_scope.

(** ** Outcomes of Python calls *)

Module Py.

(** The exception classes the module raises or lets through. *)
Inductive exn : Type :=
| RuntimeError (msg : string)
| TypeError (msg : string)
| AssertionError (msg : string)
| AttributeError (msg : string)
| NotImplementedError
| ZeroDivisionError
| RecursionError.

Inductive result (A : Type) : Type :=
| Ok (a : A)
| Raise (e : exn).
Arguments Ok {A} a.
Arguments Raise {A} e.

Definition is_ok {A} (r : result A) : bool :=
  match r with Ok _ => true | Raise _ => false end.

(** A call runs on a store [S]; what it wrote before raising stays
    written, so the store is returned next to the outcome. *)
Definition M (S A : Type) : Type := S -> result A * S.

Definition ret {S A} (a : A) : M S A := fun s => (Ok a, s).
Definition raise {S A} (e : exn) : M S A := fun s => (Raise e, s).
Definition bind {S A B} (m : M S A) (k : A -> M S B) : M S B :=
  fun s => match m s with
           | (Ok a, s') => k a s'
           | (Raise e, s') => (Raise e, s')
           end.
Definition get {S} : M S S := fun s => (Ok s, s).
Definition put {S} (s : S) : M S unit := fun _ => (Ok tt, s).
Definition modify {S} (f : S -> S) : M S unit := fun s => (Ok tt, f s).
Definition lift {S A} (r : result A) : M S A := fun s => (r, s).

(** [try: body finally: cleanup] with a cleanup that cannot raise. *)
Definition finally {S A} (body : M S A) (cleanup : S -> S) : M S A :=
  fun s => let (r, s') := body s in (r, cleanup s').

(** Pure outcomes chain the same way. *)
Definition rbind {A B} (r : result A) (k : A -> result B) : result B :=
  match r with Ok a => k a | Raise e => Raise e end.

End Py.

Import Py.

Declare Scope py_scope.
Delimit Scope py_scope with py.
Notation "'let*' x := m 'in' k" := (Py.bind m (fun x => k))
  (at level 10, x pattern, m at level 100, k at level 200) : py_scope.
Notation "m >> k" := (Py.bind m (fun _ => k))
  (at level 100, k at level 200, right associativity) : py_scope.
Local Open Scope py_scope.

(** ** Expressions of the substrate

    A sympy expression is a tree, a node class applied to arguments.
    Only the node classes the module builds or inspects are named, and
    nodes are binary.  [Symbol name] stands for
    [sympy.Symbol(name, positive=True, integer=True)]: such symbols are
    equal exactly when their names are. *)

Inductive head : Type :=
| HAdd | HMul | HPow | HMod | HFloorDiv
| HEq | HGt | HLt | HLe | HGe.

Inductive expr : Type :=
| Integer (n : Z)
| Symbol (name : string)
| BooleanAtom (b : bool)
| App (f : head) (a b : expr).

Global Instance head_eq_dec : EqDecision head.
Proof. solve_decision. Defined.

Global Instance expr_eq_dec : EqDecision expr.
Proof. solve_decision. Defined.

Definition head_code (f : head) : nat :=
  match f with
  | HAdd => 0 | HMul => 1 | HPow => 2 | HMod => 3 | HFloorDiv => 4
  | HEq => 5 | HGt => 6 | HLt => 7 | HLe => 8 | HGe => 9
  end%nat.

Definition head_of_code (n : nat) : head :=
  match n with
  | 0 => HAdd | 1 => HMul | 2 => HPow | 3 => HMod | 4 => HFloorDiv
  | 5 => HEq | 6 => HGt | 7 => HLt | 8 => HLe | _ => HGe
  end%nat.

Fixpoint expr_to_tree (e : expr) : gen_tree (Z + string + bool) :=
  match e with
  | Integer n => GenLeaf (inl (inl n))
  | Symbol s => GenLeaf (inl (inr s))
  | BooleanAtom b => GenLeaf (inr b)
  | App f a b => GenNode (head_code f) [expr_to_tree a; expr_to_tree b]
  end.

Fixpoint tree_to_expr (t : gen_tree (Z + string + bool)) : option expr :=
  match t with
  | GenLeaf (inl (inl n)) => Some (Integer n)
  | GenLeaf (inl (inr s)) => Some (Symbol s)
  | GenLeaf (inr b) => Some (BooleanAtom b)
  | GenNode c [ta; tb] =>
      match tree_to_expr ta, tree_to_expr tb with
      | Some a, Some b => Some (App (head_of_code c) a b)
      | _, _ => None
      end
  | GenNode _ _ => None
  end.

Lemma head_of_code_code f : head_of_code (head_code f) = f.
Proof. by destruct f. Qed.

Lemma tree_to_expr_to_tree e : tree_to_expr (expr_to_tree e) = Some e.
Proof.
  induction e as [| | |f a IHa b IHb]; simpl; try done.
  by rewrite IHa, IHb, head_of_code_code.
Qed.

Global Instance expr_countable : Countable expr :=
  inj_countable expr_to_tree tree_to_expr tree_to_expr_to_tree.

(** [e.free_symbols], as a duplicate-free list.  Python iterates the set
    in an order of its own; the list is in order of first occurrence. *)
Fixpoint symbols_of (e : expr) : list expr :=
  match e with
  | Symbol s => [Symbol s]
  | App _ a b => symbols_of a ++ symbols_of b
  | _ => []
  end.

Definition free_symbols (e : expr) : list expr := remove_dups (symbols_of e).

(** [e.atoms(cls)] for a node class [cls]: the subterms with that head. *)
Fixpoint nodes_with (f : head) (e : expr) : list expr :=
  match e with
  | App g a b =>
      (if decide (g = f) then [e] else []) ++ nodes_with f a ++ nodes_with f b
  | _ => []
  end.

Definition atoms (f : head) (e : expr) : list expr :=
  remove_dups (nodes_with f e).

(** Python truth value of a sympy object: [false] and [0] are falsy,
    a relation that did not evaluate has no truth value. *)
Definition truth (e : expr) : result bool :=
  match e with
  | BooleanAtom b => Ok b
  | Integer n => Ok (negb (n =? 0))
  | App (HEq | HGt | HLt | HLe | HGe) _ _ =>
      Raise (TypeError "cannot determine truth value of Relational")
  | _ => Ok true
  end.

(** ** The substrate's operations

    The algebra library is given, not part of the module: its
    auto-evaluating node constructors and its algorithms are taken as
    operations of a class. *)

Module sympy.

Class Ops : Type := {
  (** [cls(a, b)] for a native node class, with sympy's automatic
      evaluation; never called with [HFloorDiv]. *)
  build : head -> expr -> expr -> expr;
  expand : expr -> expr;
  simplify : expr -> expr;
  gcd : expr -> expr -> expr;
  (** [sympy.solve(f, x)]; may raise [NotImplementedError]. *)
  solve : expr -> expr -> result (list expr);
  str : expr -> string;
}.

Section Operators.
Context `{Ops}.

(** The Python operators of [sympy.Expr]. *)
Definition add (a b : expr) : expr := build HAdd a b.
Definition neg (a : expr) : expr := build HMul (Integer (-1)) a.
Definition sub (a b : expr) : expr := build HAdd a (neg b).
Definition mul (a b : expr) : expr := build HMul a b.
Definition mod_ (a b : expr) : expr := build HMod a b.
Definition truediv (a b : expr) : expr :=
  build HMul a (build HPow b (Integer (-1))).
End Operators.

End sympy.

(** ** [FloorDiv] *)

Section FloorDivTerm.
Context `{sympy.Ops}.

(** [FloorDiv(base, divisor)]: sympy calls [FloorDiv.eval] and keeps the
    node when it answers [None].  [eval] builds further [FloorDiv]
    terms, so the two are one recursion; [depth] is the interpreter's
    remaining recursion depth. *)
Fixpoint FloorDiv (depth : nat) (base divisor : expr) : result expr :=
  match depth with
  | O => Raise RecursionError
  | S depth' =>
      if decide (base = Integer 0) then Ok (Integer 0)
      else if decide (divisor = Integer 1) then Ok base
      else
        match base, divisor with
        | Integer a, Integer b =>
            if decide (b = 0) then Raise ZeroDivisionError
            else Ok (Integer (a `div` b))
        | App HFloorDiv b0 d0, _ =>
            FloorDiv depth' b0 (sympy.mul d0 divisor)
        | _, _ =>
            let g := sympy.gcd base divisor in
            if decide (g = Integer 1) then Ok (App HFloorDiv base divisor)
            else FloorDiv depth'
                   (sympy.simplify (sympy.truediv base g))
                   (sympy.simplify (sympy.truediv divisor g))
        end
  end.

End FloorDivTerm.

(** ** Values that flow through the module *)

(** [PySymInt(expr, shape_env, constant)]; [shape_env] is a reference to
    the owning environment. *)
Record PySymInt : Type := mkPySymInt {
  expr_of : expr;
  shape_env : nat;
  constant : option Z;
}.

Record PySymFloat : Type := mkPySymFloat {
  fexpr_of : expr;
  fshape_env : nat;
  fconstant : option Z;
}.

Inductive value : Type :=
| VNone
| VInt (n : Z)
| VExpr (e : expr)
| VSymInt (p : PySymInt)
| VSymFloat (p : PySymFloat).

(** What sympy accepts as an operand: its own objects and Python ints. *)
Definition sympify (v : value) : result expr :=
  match v with
  | VInt n => Ok (Integer n)
  | VExpr e => Ok e
  | _ => Raise (TypeError "cannot sympify")
  end.

(** The callable handed to a dispatch handler: [getattr(operator, name)]
    or [sym_float]. *)
Inductive pyfunc : Type :=
| operator_ (name : string)
| sym_float_fn.

(** ** The dispatch-mode slot *)

(** A mode object is known by its identity. *)
Definition mode : Type := nat.

(** The store of the dispatch machinery: the global [SYM_FUNCTION_MODE],
    the [inner] attribute of every mode object that has one, and whatever
    the handlers keep of their own. *)
Record DispatchStore (U : Type) : Type := mkDispatchStore {
  SYM_FUNCTION_MODE : option mode;
  inner : gmap mode (option mode);
  user : U;
}.
Arguments mkDispatchStore {U}.
Arguments SYM_FUNCTION_MODE {U}.
Arguments inner {U}.
Arguments user {U}.

Definition set_SYM_FUNCTION_MODE {U} (m : option mode) (s : DispatchStore U)
  : DispatchStore U :=
  mkDispatchStore m (inner s) (user s).

Definition set_inner {U} (self : mode) (old : option mode)
  (s : DispatchStore U) : DispatchStore U :=
  mkDispatchStore (SYM_FUNCTION_MODE s) (<[self := old]> (inner s)) (user s).

Definition already_used : string :=
  "mode has already been used as a mode. Please use a fresh version".

(** [SymDispatchMode.__enter__] *)
Definition __enter__ {U} (self : mode) : M (DispatchStore U) mode :=
  let* s := get in
  let old := SYM_FUNCTION_MODE s in
  match inner s !! self with
  | Some _ => raise (RuntimeError already_used)
  | None =>
      modify (set_inner self old) >>
      modify (set_SYM_FUNCTION_MODE (Some self)) >>
      ret self
  end.

(** [SymDispatchMode.__exit__] *)
Definition __exit__ {U} (self : mode) : M (DispatchStore U) unit :=
  let* s := get in
  match inner s !! self with
  | Some i => put (set_SYM_FUNCTION_MODE i s)
  | None => raise (AttributeError "inner")
  end.

(** ** [PySymInt] and its generated operators *)

Section Operators.
Context `{sympy.Ops}.
Context {U : Type}.

(** A handler [__sym_dispatch__(self, func, types, args, kwargs)].  Its
    first argument is the way it performs operations of its own: the
    attribute of [PySymInt] with the given name, applied to a symbolic
    scalar and an operand. *)
Definition handler : Type :=
  (string -> PySymInt -> value -> M (DispatchStore U) value) ->
  pyfunc -> list value -> M (DispatchStore U) value.

Variable __sym_dispatch__ : mode -> handler.

(** [_handle_sym_dispatch(func, args, kwargs)] *)
Definition _handle_sym_dispatch
  (perform : string -> PySymInt -> value -> M (DispatchStore U) value)
  (func : pyfunc) (args : list value) : M (DispatchStore U) value :=
  let* s := get in
  match SYM_FUNCTION_MODE s with
  | None => raise (AssertionError "")
  | Some mode =>
      match inner s !! mode with
      | None => raise (AttributeError "inner")
      | Some i =>
          modify (set_SYM_FUNCTION_MODE i) >>
          finally (__sym_dispatch__ mode perform func args)
                  (set_SYM_FUNCTION_MODE (Some mode))
      end
  end.

(** The lambdas of the two method tables. *)
Definition binop : Type := nat -> expr -> expr -> result expr.

Definition reflectable_magic_methods : list (string * binop) :=
  [ ("add", fun _ a b => Ok (sympy.add a b));
    ("sub", fun _ a b => Ok (sympy.sub a b));
    ("mul", fun _ a b => Ok (sympy.mul a b));
    ("mod", fun _ a b => Ok (sympy.mod_ a b));
    ("floordiv", fun depth a b => FloorDiv depth a b) ].

Definition magic_methods : list (string * binop) :=
  reflectable_magic_methods ++
  [ ("eq", fun _ a b => Ok (sympy.build HEq a b));
    ("gt", fun _ a b => Ok (sympy.build HGt a b));
    ("lt", fun _ a b => Ok (sympy.build HLt a b));
    ("le", fun _ a b => Ok (sympy.build HLe a b));
    ("ge", fun _ a b => Ok (sympy.build HGe a b)) ].

Abbreviation method := (PySymInt -> value -> M (DispatchStore U) value).

(** The loop over [magic_methods.items()]: three [setattr] per entry, the
    third only for the reflectable ones.  [create] is
    [_create_magic_impl] with [method] already bound. *)
Definition install (create : string -> binop -> method)
  (attrs : gmap string method) (entry : string * binop)
  : gmap string method :=
  let '(method, _func) := entry in
  let attrs := <[method := create method _func]> attrs in
  let attrs := <["__" +:+ method +:+ "__" := create method _func]> attrs in
  if bool_decide (method ∈ reflectable_magic_methods.*1)
  then <["__r" +:+ method +:+ "__" := create method _func]> attrs
  else attrs.

Definition PySymInt_attrs (create : string -> binop -> method)
  : gmap string method :=
  foldl (install create) ∅ magic_methods.

(** [magic_impl(self, other)] as [_create_magic_impl(func)] returns it,
    [method_name] being the loop's [method].  [depth] is the remaining
    recursion depth: a handler may perform operations that are themselves
    dispatched. *)
Fixpoint magic_impl (depth : nat) (method_name : string) (func : binop)
  (self : PySymInt) (other : value) : M (DispatchStore U) value :=
  match depth with
  | O => raise RecursionError
  | S depth' =>
      let perform name a b :=
        match PySymInt_attrs (magic_impl depth') !! name with
        | Some m => m a b
        | None => raise (AttributeError name)
        end in
      let* s := get in
      match SYM_FUNCTION_MODE s with
      | Some _ =>
          _handle_sym_dispatch perform (operator_ method_name)
            [VSymInt self; other]
      | None =>
          let other :=
            match other with VSymInt o => VExpr (expr_of o) | _ => other end in
          let* b := lift (sympify other) in
          let* e := lift (func depth' (expr_of self) b) in
          ret (VSymInt (mkPySymInt e (shape_env self) None))
      end
  end.

(** [getattr(a, name)(other)] on a [PySymInt] [a]. *)
Definition call_method (depth : nat) (name : string) (a : PySymInt)
  (other : value) : M (DispatchStore U) value :=
  match PySymInt_attrs (magic_impl depth) !! name with
  | Some m => m a other
  | None => raise (AttributeError name)
  end.

(** [PySymInt.__sym_float__] *)
Definition __sym_float__ (depth : nat) (self : PySymInt)
  : M (DispatchStore U) value :=
  let* s := get in
  match SYM_FUNCTION_MODE s with
  | Some _ =>
      _handle_sym_dispatch (call_method depth) sym_float_fn [VSymInt self]
  | None => ret (VSymFloat (mkPySymFloat (expr_of self) (shape_env self) None))
  end.

(** [PySymInt.__int__] *)
Definition __int__ (self : PySymInt) : result Z :=
  Raise (RuntimeError
           "Trying to extract a concrete int out of a symbolic int").

End Operators.

(** ** [ShapeEnv] *)

Record ShapeEnv : Type := mkShapeEnv {
  guards : list (expr * expr);
  var_to_val : gmap expr Z;
  replacements : gmap expr expr;
  divisible : gset expr;
}.

(** [ShapeEnv.__init__] *)
Definition ShapeEnv_init : ShapeEnv := mkShapeEnv [] ∅ ∅ ∅.

(** [ShapeEnv._get_key] *)
Definition _get_key (env : ShapeEnv) : nat * nat :=
  (size (replacements env), size (divisible env)).

(** What a function wrapped by [_lru_cache] keeps: the closure variable
    [prior_key] and the table of [fn_cache]. *)
Record lru (K V : Type) `{Countable K} : Type := mkLru {
  prior_key : option (nat * nat);
  fn_cache : gmap K V;
}.
Arguments mkLru {K V _ _}.
Arguments prior_key {K V _ _}.
Arguments fn_cache {K V _ _}.

(** The environment together with the memo tables of its methods.  One
    environment is live, so the tables are keyed by the arguments after
    [self].  [size_hint] is memoised by [functools.lru_cache] directly;
    the table is kept without eviction. *)
Record World : Type := mkWorld {
  env : ShapeEnv;
  static_cache : lru expr (option expr);
  update_cache : lru unit unit;
  simplify_cache : lru expr expr;
  size_hint_cache : gmap expr expr;
}.

Definition World_init : World :=
  mkWorld ShapeEnv_init (mkLru None ∅) (mkLru None ∅) (mkLru None ∅) ∅.

Definition set_env (e : ShapeEnv) (w : World) : World :=
  mkWorld e (static_cache w) (update_cache w) (simplify_cache w)
    (size_hint_cache w).
Definition set_static_cache (c : lru expr (option expr)) (w : World) : World :=
  mkWorld (env w) c (update_cache w) (simplify_cache w) (size_hint_cache w).
Definition set_update_cache (c : lru unit unit) (w : World) : World :=
  mkWorld (env w) (static_cache w) c (simplify_cache w) (size_hint_cache w).
Definition set_simplify_cache (c : lru expr expr) (w : World) : World :=
  mkWorld (env w) (static_cache w) (update_cache w) c (size_hint_cache w).
Definition set_size_hint_cache (c : gmap expr expr) (w : World) : World :=
  mkWorld (env w) (static_cache w) (update_cache w) (simplify_cache w) c.

Definition set_guards (g : list (expr * expr)) (e : ShapeEnv) : ShapeEnv :=
  mkShapeEnv g (var_to_val e) (replacements e) (divisible e).
Definition set_var_to_val (v : gmap expr Z) (e : ShapeEnv) : ShapeEnv :=
  mkShapeEnv (guards e) v (replacements e) (divisible e).
Definition set_replacements (r : gmap expr expr) (e : ShapeEnv) : ShapeEnv :=
  mkShapeEnv (guards e) (var_to_val e) r (divisible e).
Definition set_divisible (d : gset expr) (e : ShapeEnv) : ShapeEnv :=
  mkShapeEnv (guards e) (var_to_val e) (replacements e) d.

(** [_lru_cache(fn)]: the wrapper around [fn], given where the wrapped
    function's closure lives in the world. *)
Definition _lru_cache {K V : Type} `{Countable K}
  (cache_of : World -> lru K V) (set_cache : lru K V -> World -> World)
  (fn : K -> M World V) (args : K) : M World V :=
  let* w := get in
  let key := _get_key (env w) in
  (if decide (prior_key (cache_of w) = Some key) then ret tt
   else modify (set_cache (mkLru (Some key) ∅))) >>
  let* w := get in
  match fn_cache (cache_of w) !! args with
  | Some v => ret v
  | None =>
      let* v := fn args in
      modify (fun w =>
        set_cache (mkLru (prior_key (cache_of w))
                         (<[args := v]> (fn_cache (cache_of w)))) w) >>
      ret v
  end.

(** A pseudo-outcome for a [while] loop that never ends. *)
Definition diverges : exn := RuntimeError "<the loop does not terminate>".

Section Environment.
Context `{sympy.Ops}.

(** Remaining interpreter recursion depth available to [FloorDiv]. *)
Variable recursion_limit : nat.

(** The module constant [HAS_SYMPY]. *)
Variable HAS_SYMPY : bool.

(** [cls(a, b)] for the class of a node, as [xreplace] rebuilds it. *)
Definition rebuild (f : head) (a b : expr) : result expr :=
  match f with
  | HFloorDiv => FloorDiv recursion_limit a b
  | _ => Ok (sympy.build f a b)
  end.

(** sympy's [Basic._xreplace]: the rewritten term and whether anything
    changed; a node is rebuilt only when an argument changed. *)
Fixpoint _xreplace (rule : gmap expr expr) (e : expr) : result (expr * bool) :=
  match rule !! e with
  | Some v => Ok (v, true)
  | None =>
      match e with
      | App f a b =>
          rbind (_xreplace rule a) (fun '(a', ca) =>
          rbind (_xreplace rule b) (fun '(b', cb) =>
          if ca || cb
          then rbind (rebuild f a' b') (fun e' => Ok (e', true))
          else Ok (e, false)))
      | _ => Ok (e, false)
      end
  end.

Definition xreplace (e : expr) (rule : gmap expr expr) : result expr :=
  rbind (_xreplace rule e) (fun r => Ok r.1).

(** First loop of [find]: follow the chain to its end. *)
Fixpoint find_root (fuel : nat) (repl : gmap expr expr) (a : expr)
  : result expr :=
  match repl !! a with
  | None => Ok a
  | Some a' =>
      match fuel with
      | O => Raise diverges
      | S fuel' => find_root fuel' repl a'
      end
  end.

(** Second loop of [find]: point every key of the chain at the root. *)
Fixpoint compress (fuel : nat) (root : expr) (repl : gmap expr expr)
  (acopy : expr) : result (gmap expr expr) :=
  match repl !! acopy with
  | None => Ok repl
  | Some next =>
      match fuel with
      | O => Raise diverges
      | S fuel' => compress fuel' root (<[acopy := root]> repl) next
      end
  end.

(** [ShapeEnv.find].  A chain without a cycle has at most as many links as
    [replacements] has keys. *)
Definition find (a : expr) : M World expr :=
  let* w := get in
  let repl := replacements (env w) in
  let* root := lift (find_root (size repl) repl a) in
  let* repl' := lift (compress (size repl) root repl a) in
  modify (fun w => set_env (set_replacements repl' (env w)) w) >>
  ret root.

(** The dict comprehension of [replace], one [find] per free symbol. *)
Fixpoint find_all (symbols : list expr) : M World (gmap expr expr) :=
  match symbols with
  | [] => ret ∅
  | s :: rest =>
      let* r := find s in
      let* m := find_all rest in
      ret (<[s := r]> m)
  end.

(** [ShapeEnv.replace] *)
Definition replace (e : expr) : M World expr :=
  let* rule := find_all (free_symbols e) in
  lift (xreplace e rule).

(** The loop of [update_divisible] over the recorded terms. *)
Fixpoint refresh (terms : list expr) (new_divisible : gset expr)
  : M World (gset expr) :=
  match terms with
  | [] => ret new_divisible
  | a :: rest =>
      let* r := replace a in
      let res := sympy.expand r in
      refresh rest
        (if decide (0 < length (free_symbols res))%nat
         then new_divisible ∪ {[res]} else new_divisible)
  end.

Definition update_divisible_body (_ : unit) : M World unit :=
  let* w := get in
  let* new_divisible := refresh (elements (divisible (env w))) ∅ in
  modify (fun w => set_env (set_divisible new_divisible (env w)) w).

(** [ShapeEnv.update_divisible] *)
Definition update_divisible : M World unit :=
  _lru_cache update_cache set_update_cache update_divisible_body tt.

(** The loop of [simplify] over the [FloorDiv] atoms. *)
Fixpoint rewrite_divisible (atoms_ : list expr) (e : expr) : M World expr :=
  match atoms_ with
  | [] => ret e
  | atom :: rest =>
      let* w := get in
      match atom with
      | App _ a0 a1 =>
          if decide (atom ∈ divisible (env w))
          then
            let* e' := lift (xreplace e {[atom := sympy.truediv a0 a1]}) in
            rewrite_divisible rest e'
          else rewrite_divisible rest e
      | _ => rewrite_divisible rest e
      end
  end.

Definition simplify_body (e : expr) : M World expr :=
  let* r := replace e in
  let e := sympy.expand r in
  if decide (0 < length (atoms HFloorDiv e))%nat
  then
    update_divisible >>
    let* e := rewrite_divisible (atoms HFloorDiv e) e in
    ret (sympy.expand e)
  else ret e.

(** [ShapeEnv.simplify] *)
Definition simplify (e : expr) : M World expr :=
  _lru_cache simplify_cache set_simplify_cache simplify_body e.

(** [isinstance(e, sympy.Expr)]: numbers, symbols and arithmetic nodes
    are; the Boolean atoms and the relations are not. *)
Definition is_Expr (e : expr) : bool :=
  match e with
  | BooleanAtom _ => false
  | App (HEq | HGt | HLt | HLe | HGe) _ _ => false
  | _ => true
  end.

Definition no_value : string :=
  "Size hint has variables we don't have underlying values for".

Definition size_hint_body (e : expr) : M World expr :=
  let* w := get in
  let* result_expr :=
    lift (xreplace (sympy.expand e) (Integer <$> var_to_val (env w))) in
  if is_Expr result_expr && negb (length (free_symbols result_expr) =? 0)%nat
  then raise (AssertionError no_value)
  else ret result_expr.

(** [ShapeEnv.size_hint] *)
Definition size_hint (e : expr) : M World expr :=
  let* w := get in
  match size_hint_cache w !! e with
  | Some v => ret v
  | None =>
      let* v := size_hint_body e in
      modify (fun w => set_size_hint_cache (<[e := v]> (size_hint_cache w)) w) >>
      ret v
  end.

(** The placeholder of [maybe_evaluate_static] for the symbol at [idx]. *)
Definition placeholder (idx : nat) : expr :=
  sympy.add (Symbol ("shape_" +:+ pretty idx)) (Integer 1).

Definition maybe_evaluate_static_body (e : expr) : M World (option expr) :=
  let symbols := free_symbols e in
  let new_shape_env : gmap expr expr :=
    list_to_map (imap (fun idx k => (k, placeholder idx)) symbols) in
  let* new_expr := lift (xreplace e new_shape_env) in
  let new_expr := sympy.expand new_expr in
  if (length (free_symbols new_expr) =? 0)%nat
  then ret (Some new_expr)
  else ret None.

(** [ShapeEnv.maybe_evaluate_static] *)
Definition maybe_evaluate_static (e : expr) : M World (option expr) :=
  _lru_cache static_cache set_static_cache maybe_evaluate_static_body e.

(** The sort key [(-self.size_hint(x), x.name)] of [evaluate_eq]. *)
Definition sort_key (x : expr) : M World (Z * string) :=
  let* h := size_hint x in
  match h, x with
  | Integer n, Symbol name => ret (- n, name)
  | _, _ => raise (TypeError "bad operand for sort key")
  end.

(** Python's order on the key tuples. *)
Definition key_le (k1 k2 : Z * string) : bool :=
  (k1.1 <? k2.1) || ((k1.1 =? k2.1) && String.leb k1.2 k2.2).

Fixpoint keys_of (l : list expr) : M World (list ((Z * string) * expr)) :=
  match l with
  | [] => ret []
  | x :: rest =>
      let* k := sort_key x in
      let* ks := keys_of rest in
      ret ((k, x) :: ks)
  end.

Fixpoint insert_by_key (kx : (Z * string) * expr)
  (l : list ((Z * string) * expr)) : list ((Z * string) * expr) :=
  match l with
  | [] => [kx]
  | ky :: rest =>
      if key_le kx.1 ky.1 then kx :: l else ky :: insert_by_key kx rest
  end.

(** [sorted(free, key=...)]: a stable sort on the computed keys. *)
Definition sorted_by_key (l : list ((Z * string) * expr)) : list expr :=
  (foldr insert_by_key [] l).*2.

(** ["/" not in str(e)] *)
Fixpoint has_slash (s : string) : bool :=
  match s with
  | EmptyString => false
  | String c rest => bool_decide (c = "/"%char) || has_slash rest
  end.

(** The handler of [NotImplementedError] in [evaluate_eq]. *)
Definition record_divisible (e lhs rhs : expr) : M World unit :=
  match atoms HMod e with
  | [mod_expr] =>
      match sympy.solve (sympy.sub lhs rhs) mod_expr with
      | Ok [sol] =>
          if decide (sol = Integer 0)
          then
            match mod_expr with
            | App _ m0 m1 =>
                let* fd := lift (FloorDiv recursion_limit m0 m1) in
                modify (fun w =>
                  set_env (set_divisible (divisible (env w) ∪ {[fd]}) (env w)) w)
            | _ => raise (AttributeError "args")
            end
          else ret tt
      | Ok _ => ret tt
      | Raise NotImplementedError => ret tt
      | Raise e => raise e
      end
  | _ => ret tt
  end.

(** The [try] block of [evaluate_eq], [x] being [free[0]]; every relation
    has [lhs] and [rhs]. *)
Definition solve_for (e x : expr) : M World unit :=
  match e with
  | App (HEq | HGt | HLt | HLe | HGe) lhs rhs =>
      match sympy.solve (sympy.sub lhs rhs) x with
      | Ok [sol] =>
          let* t := lift (truth sol) in
          if t && negb (has_slash (sympy.str sol))
          then
            let* new_var := find sol in
            modify (fun w =>
              set_env (set_replacements
                         (<[x := new_var]> (replacements (env w))) (env w)) w)
          else ret tt
      | Ok _ => ret tt
      | Raise NotImplementedError => record_divisible e lhs rhs
      | Raise exc => raise exc
      end
  | _ => raise (AttributeError "lhs")
  end.

Definition append_guard (e v : expr) : M World unit :=
  modify (fun w => set_env (set_guards (guards (env w) ++ [(e, v)]) (env w)) w).

(** [ShapeEnv.evaluate_eq] *)
Definition evaluate_eq (e : expr) : M World expr :=
  let* concrete_val := size_hint e in
  append_guard e concrete_val >>
  let* t := lift (truth concrete_val) in
  if negb t then ret concrete_val
  else
    let free := free_symbols e in
    if (length free =? 0)%nat
    then raise (AssertionError
                  "The expression should not be static by this point")
    else
      (if bool_decide (length free ∈ [1; 2; 3]%nat)
       then
         let* keyed := keys_of free in
         match sorted_by_key keyed with
         | x :: _ => solve_for e x
         | [] => raise (AssertionError "unreachable")
         end
       else ret tt) >>
      ret concrete_val.

Definition is_Eq (e : expr) : bool :=
  match e with App HEq _ _ => true | _ => false end.

(** [ShapeEnv.evaluate_expr]: the body of its [try].  An outcome [Raise]
    is the case in which the source enters its handler; the handler
    prints, stops in the debugger and prints again, and touches nothing
    of the environment.  What the caller is handed after that depends on
    the debugger session and is not part of the model. *)
Definition evaluate_expr (e : expr) : M World expr :=
  if (length (free_symbols e) =? 0)%nat then ret e
  else
    let* e := simplify e in
    let* static_expr := maybe_evaluate_static e in
    match static_expr with
    | Some v => ret v
    | None =>
        if is_Eq e then evaluate_eq e
        else
          let* concrete_val := size_hint e in
          append_guard e concrete_val >>
          ret concrete_val
    end.

(** [int(e)] on what [evaluate_expr] returns. *)
Definition int_of (e : expr) : result Z :=
  match e with
  | Integer n => Ok n
  | _ => Raise (TypeError "cannot convert to int")
  end.

(** [PySymInt.guard_int] *)
Definition guard_int (self : PySymInt) : M World Z :=
  let* v := evaluate_expr (expr_of self) in
  lift (int_of v).

(** [PySymInt.__bool__] *)
Definition __bool__ (self : PySymInt) : M World bool :=
  let* v := evaluate_expr (expr_of self) in
  lift (truth v).

(** Reference of the one live environment. *)
Definition self_env : nat := 0%nat.

(** [ShapeEnv.create_symint] *)
Definition create_symint (name : string) (val : Z) : M World value :=
  if negb HAS_SYMPY
  then raise (RuntimeError "Need sympy installed to create symbolic shapes")
  else if (val =? 0) || (val =? 1) then ret (VInt val)
  else
    let sympy_expr := Symbol name in
    let py_sym_int := mkPySymInt sympy_expr self_env None in
    let cpp_sym_int := VSymInt py_sym_int in
    modify (fun w =>
      set_env (set_var_to_val (<[sympy_expr := val]> (var_to_val (env w)))
                 (env w)) w) >>
    ret cpp_sym_int.

(** A tensor object: its identity and its sizes. *)
Record Tensor : Type := mkTensor {
  tensor_id : nat;
  shape : list Z;
}.

Inductive leaf : Type :=
| LTensor (t : Tensor)
| LOther (v : value).

(** Nested containers of leaves, and [pytree.tree_flatten(args)[0]]. *)
#[warnings="-register-all"]
Inductive pytree : Type :=
| PLeaf (x : leaf)
| PNode (children : list pytree).

Fixpoint tree_flatten (t : pytree) : list leaf :=
  match t with
  | PLeaf x => [x]
  | PNode children =>
      (fix go (l : list pytree) : list leaf :=
         match l with
         | [] => []
         | c :: rest => tree_flatten c ++ go rest
         end) children
  end.

(** What [create_shape] returns for a leaf. *)
Inductive shaped : Type :=
| OutShape (dims : list value)
| Passed (x : value).

Definition symbol_name (arg_cnt idx : nat) : string :=
  "s_" +:+ pretty arg_cnt +:+ "[" +:+ pretty idx +:+ "]".

(** The list comprehension of [create_shape] over [enumerate(x.shape)]. *)
Fixpoint create_dims (arg_cnt idx : nat) (sizes : list Z)
  : M World (list value) :=
  match sizes with
  | [] => ret []
  | sz :: rest =>
      let* v := create_symint (symbol_name arg_cnt idx) sz in
      let* vs := create_dims arg_cnt (S idx) rest in
      ret (v :: vs)
  end.

(** [map(create_shape, leaves)], the closure variable [arg_cnt] being
    threaded along. *)
Fixpoint create_shapes (arg_cnt : nat) (leaves : list leaf)
  : M World (list shaped) :=
  match leaves with
  | [] => ret []
  | LOther v :: rest =>
      let* out := create_shapes arg_cnt rest in
      ret (Passed v :: out)
  | LTensor x :: rest =>
      let* out_shape := create_dims arg_cnt 0 (shape x) in
      let* out := create_shapes (S arg_cnt) rest in
      ret (OutShape out_shape :: out)
  end.

(** [ShapeEnv.create_shapes_for_args(self, args)] *)
Definition create_shapes_for_args (args : pytree) : M World (list shaped) :=
  create_shapes 0 (tree_flatten args).

Definition create_shapes_for_args_params : list string := ["self"; "args"].

(** Binding of a call's keywords against the parameters of a [def]
    without a double-star parameter. *)
Definition call_with_keywords {S A : Type} (fname : string)
  (params keywords : list string) (body : M S A) : M S A :=
  match List.find (fun k => negb (bool_decide (k ∈ params))) keywords with
  | Some k =>
      raise (TypeError (fname +:+ "() got an unexpected keyword argument '"
                          +:+ k +:+ "'"))
  | None => body
  end.

(** [all(guard.xreplace(env) == value for guard, value in self.guards)] *)
Fixpoint all_guards_hold (env_ : gmap expr expr) (gs : list (expr * expr))
  : result bool :=
  match gs with
  | [] => Ok true
  | (guard, value_) :: rest =>
      rbind (xreplace guard env_) (fun g =>
      if decide (g = value_) then all_guards_hold env_ rest else Ok false)
  end.

(** [ShapeEnv.evaluate_guards_for_args(self, *args)] *)
Definition evaluate_guards_for_args (args : list pytree) : M World bool :=
  let env_ : gmap expr expr := ∅ in
  call_with_keywords "create_shapes_for_args"
    create_shapes_for_args_params ["var_to_val"]
    (create_shapes_for_args (PNode args)) >>
  let* w := get in
  lift (all_guards_hold env_ (guards (env w))).

(** The operations a caller performs on an environment. *)
Inductive operation : Type :=
| op_create_symint (name : string) (val : Z)
| op_evaluate_expr (e : expr)
| op_evaluate_eq (e : expr)
| op_simplify (e : expr)
| op_guard_int (a : PySymInt)
| op_bool (a : PySymInt).

Definition forget {A : Type} (m : M World A) : M World unit :=
  fun w => match m w with
           | (Ok _, w') => (Ok tt, w')
           | (Raise e, w') => (Raise e, w')
           end.

Definition run (o : operation) : M World unit :=
  match o with
  | op_create_symint name val => forget (create_symint name val)
  | op_evaluate_expr e => forget (evaluate_expr e)
  | op_evaluate_eq e => forget (evaluate_eq e)
  | op_simplify e => forget (simplify e)
  | op_guard_int a => forget (guard_int a)
  | op_bool a => forget (__bool__ a)
  end.

(** The world after a sequence of operations; a caller may go on after an
    operation raised. *)
Fixpoint run_all (ops : list operation) (w : World) : World :=
  match ops with
  | [] => w
  | o :: rest => run_all rest (run o w).2
  end.

End Environment.

(** ** A fragment of the substrate

    Enough of sympy's behaviour to run the module on small inputs: constant
    folding in the node constructors, the sign of a positive symbol in
    comparisons, linear equations in one unknown with unit coefficient.
    Outside the fragment a node is kept as built and [solve] refuses. *)

Module Fragment.

Definition compare_integers (f : head) (x y : Z) : bool :=
  match f with
  | HEq => x =? y
  | HGt => y <? x
  | HLt => x <? y
  | HLe => x <=? y
  | _ => y <=? x
  end.

(** A lower bound of a term built from positive integer symbols. *)
Definition lower_bound (e : expr) : option Z :=
  match e with
  | Integer n => Some n
  | Symbol _ => Some 1
  | App HAdd (Symbol _) (Integer k) => Some (1 + k)
  | _ => None
  end.

Definition build (f : head) (a b : expr) : expr :=
  match f with
  | HAdd =>
      match a, b with
      | Integer x, Integer y => Integer (x + y)
      | _, Integer 0 => a
      | Integer 0, _ => b
      | _, App HMul (Integer (-1)) b' =>
          if decide (a = b') then Integer 0 else App f a b
      | _, _ => App f a b
      end
  | HMul =>
      match a, b with
      | Integer x, Integer y => Integer (x * y)
      | Integer 1, _ => b
      | _, Integer 1 => a
      | _, _ => App f a b
      end
  | HMod =>
      match a, b with
      | Integer x, Integer y =>
          if decide (y = 0) then App f a b else Integer (x `mod` y)
      | _, _ => App f a b
      end
  | HPow =>
      match b with
      | Integer 1 => a
      | _ => App f a b
      end
  | HFloorDiv => App f a b
  | HEq =>
      if decide (a = b) then BooleanAtom true
      else
        match a, b with
        | Integer _, Integer _ => BooleanAtom false
        | _, _ => App f a b
        end
  | HGt | HGe | HLt | HLe =>
      match a, b with
      | Integer x, Integer y => BooleanAtom (compare_integers f x y)
      | _, Integer c =>
          match lower_bound a with
          | Some l =>
              match f with
              | HGt => if decide (c < l) then BooleanAtom true else App f a b
              | HGe => if decide (c <= l) then BooleanAtom true else App f a b
              | HLt => if decide (c <= l) then BooleanAtom false else App f a b
              | _ => if decide (c < l) then BooleanAtom false else App f a b
              end
          | None => App f a b
          end
      | _, _ => App f a b
      end
  end.

Definition gcd (a b : expr) : expr :=
  match a, b with
  | Integer x, Integer y => Integer (Z.gcd x y)
  | _, _ => if decide (a = b) then a else Integer 1
  end.

Definition is_symbol (e : expr) : bool :=
  match e with Symbol _ => true | _ => false end.

(** [solve(f, x)] for [f] of the form [x], [x + k] or [x - y]. *)
Definition solve (f x : expr) : result (list expr) :=
  if is_symbol x && negb (length (atoms HMod f) =? 0)%nat
  then Raise NotImplementedError
  else if decide (f = x)
  then Ok (if is_symbol x then [] else [Integer 0])
  else
    match f with
    | App HAdd a (Integer k) =>
        if decide (a = x)
        then Ok (if is_symbol x && (- k <=? 0) then [] else [Integer (- k)])
        else Raise NotImplementedError
    | App HAdd a (App HMul (Integer (-1)) b) =>
        if decide (a = x) then Ok [b] else Raise NotImplementedError
    | _ => Raise NotImplementedError
    end.

Definition head_str (f : head) : string :=
  match f with
  | HAdd => " + " | HMul => "*" | HPow => "**" | HMod => " % "
  | HFloorDiv => " // "
  | HEq => " == " | HGt => " > " | HLt => " < " | HLe => " <= "
  | HGe => " >= "
  end.

Fixpoint str (e : expr) : string :=
  match e with
  | Integer n => pretty n
  | Symbol name => name
  | BooleanAtom true => "True"
  | BooleanAtom false => "False"
  | App HPow a (Integer (-1)) => "1/" +:+ str a
  | App f a b => "(" +:+ str a +:+ head_str f +:+ str b +:+ ")"
  end.

Definition ops : sympy.Ops :=
  {| sympy.build := build;
     sympy.expand := fun e => e;
     sympy.simplify := fun e => e;
     sympy.gcd := gcd;
     sympy.solve := solve;
     sympy.str := str |}.

(** CPython's default recursion limit. *)
Definition recursion_limit : nat := 1000.

Definition s0 : expr := Symbol "s0".
Definition s1 : expr := Symbol "s1".

End Fragment.

(** [table[name]] on one of the two method tables. *)
Fixpoint table_get {A : Type} (name : string) (table : list (string * A))
  : option A :=
  match table with
  | [] => None
  | (k, v) :: rest => if decide (k = name) then Some v else table_get name rest
  end.

(** A mode object has been entered when it carries the attribute
    [inner]. *)
Definition entered {U : Type} (s : DispatchStore U) (m : mode) : Prop :=
  is_Some (inner s !! m).

(** The shape of a store that only [__enter__], [__exit__] and
    [_handle_sym_dispatch] have written: the active mode has been entered,
    the inner link of an entered mode leads to an entered mode, and no
    mode is its own inner link. *)
Record well_formed {U : Type} (s : DispatchStore U) : Prop := {
  wf_active : forall m, SYM_FUNCTION_MODE s = Some m -> entered s m;
  wf_inner : forall m m', inner s !! m = Some (Some m') -> entered s m';
  wf_irreflexive : forall m, inner s !! m ≠ Some (Some m);
}.

(** ** Two nested logging modes

    Handlers that note the call in the store and then perform the same
    addition themselves, as a tracing mode does. *)

Module Scenario.

Definition log : Type := list (mode * pyfunc).

Definition note (m : mode) (func : pyfunc) (s : DispatchStore log)
  : DispatchStore log :=
  mkDispatchStore (SYM_FUNCTION_MODE s) (inner s) (user s ++ [(m, func)]).

Definition logging (m : mode) : handler (U := log) :=
  fun perform func args =>
    modify (note m func) >>
    match args with
    | [VSymInt a; b] => perform "__add__" a b
    | _ => ret VNone
    end.

(** The store inside [with outer: with inner_: ...], [outer] being the
    object 1 and [inner_] the object 2. *)
Definition nested : DispatchStore log :=
  mkDispatchStore (Some 2%nat) (<[2%nat := Some 1%nat]> {[ 1%nat := None ]}) [].

Definition x : PySymInt := mkPySymInt Fragment.s0 0 None.

End Scenario.

(** ** What [create_shapes_for_args] is expected to return *)

(** The scalar [create_symint] returns for dimension [idx], of size [sz],
    of the tensor leaf numbered [arg_cnt]. *)
Definition symint_for (arg_cnt idx : nat) (sz : Z) : value :=
  if (sz =? 0) || (sz =? 1) then VInt sz
  else VSymInt (mkPySymInt (Symbol (symbol_name arg_cnt idx)) self_env None).

Definition is_tensor (x : leaf) : bool :=
  match x with LTensor _ => true | LOther _ => false end.

(** The number of tensor leaves before position [i]. *)
Definition tensors_before (i : nat) (leaves : list leaf) : nat :=
  length (filter (fun x => is_tensor x = true) (take i leaves)).

(** One tensor of sizes 8 and 1, met twice in the arguments. *)
Definition shared_tensor : Tensor := mkTensor 7 [8; 1].

Definition shared_twice : pytree :=
  PNode [PLeaf (LTensor shared_tensor);
         PNode [PLeaf (LOther (VInt 5)); PLeaf (LTensor shared_tensor)]].

(** ** Two short tracing sessions on the fragment *)

Module Session.

Import Fragment.

Definition run_all : list operation -> World -> World :=
  run_all (H := ops) recursion_limit true.

(** [s0] of size 6 is found divisible by 3, then found equal to 6. *)
Definition divisible_by_three : expr :=
  App HEq (App HMod s0 (Integer 3)) (Integer 0).

Definition equal_to_six : expr := App HEq s0 (Integer 6).

Definition first_session : list operation :=
  [ op_create_symint "s0" 6; op_create_symint "s1" 4;
    op_evaluate_expr divisible_by_three; op_evaluate_expr equal_to_six ].

Definition halved : expr := App HFloorDiv s1 (Integer 2).

(** [s0] of size 16 and [s1] of size 8, and the equality [s0 == 2*s1]. *)
Definition second_session : list operation :=
  [ op_create_symint "s0" 16; op_create_symint "s1" 8 ].

Definition twice_s1 : expr := App HMul (Integer 2) s1.

Definition doubled : expr := App HEq s0 twice_s1.

(** [s0] of size 6 is asked whether it equals 10, and is then bound
    again, to 10. *)
Definition equal_to_ten : expr := App HEq s0 (Integer 10).

Definition rebinding_session : list operation :=
  [ op_create_symint "s0" 6; op_evaluate_eq equal_to_ten;
    op_create_symint "s0" 10 ].

(** A world whose [replacements] chain [s0] to [s1] and [s1] to 6. *)
Definition chained : World :=
  mkWorld (mkShapeEnv [] ∅ (<[s0 := s1]> {[ s1 := Integer 6 ]}) ∅)
    (mkLru None ∅) (mkLru None ∅) (mkLru None ∅) ∅.

End Session.

(** ** Module-level helpers on shapes and tensors *)

Section Contiguous.
Context {A : Type}.
(** The literal [1] and the product of two sizes, plain or symbolic. *)
Variable one : A.
Variable mul : A -> A -> A.

(** [shape[:-1]] *)
Definition all_but_last (shape : list A) : list A :=
  take (length shape - 1) shape.

(** The body of the loop of [create_contiguous]; [strides] is never
    empty there. *)
Definition push_stride (strides : list A) (dim : A) : list A :=
  match last strides with
  | Some s => strides ++ [mul dim s]
  | None => strides
  end.

(** [create_contiguous(shape)] *)
Definition create_contiguous (shape : list A) : list A :=
  reverse (foldl push_stride [one] (reverse (all_but_last shape))).

End Contiguous.

(** The operators [is_symbolic_op] lists, and any other one. *)
Inductive aten_op : Type :=
| sym_size | dim | is_contiguous | sym_stride | sym_numel
| sym_storage_offset
| other_op (name : string).

Global Instance aten_op_eq_dec : EqDecision aten_op.
Proof. solve_decision. Defined.

(** [is_symbolic_op(func)] *)
Definition is_symbolic_op (func : aten_op) : bool :=
  bool_decide (func ∈ [sym_size; dim; is_contiguous; sym_stride; sym_numel;
                       sym_storage_offset]).

(** The tensor [args[0]] as [handle_symbolic_op] sees it: its sizes and
    the attribute [_cached_numel], when set. *)
Record TensorArg : Type := mkTensorArg {
  arg_shape : list Z;
  _cached_numel : option Z;
}.

Inductive answer : Type :=
| ANone
| AInt (n : Z)
| ABool (b : bool).

(** [handle_symbolic_op(func, args, kwargs)], the store being
    [args[0]]. *)
Definition handle_symbolic_op (func : aten_op) : M TensorArg answer :=
  if negb (is_symbolic_op func) then raise (AssertionError "")
  else
    match func with
    | sym_size => ret ANone
    | sym_stride => ret ANone
    | sym_storage_offset => ret (AInt 0)
    | dim => let* t := get in ret (AInt (Z.of_nat (length (arg_shape t))))
    | sym_numel =>
        let* t := get in
        (match _cached_numel t with
         | Some _ => ret tt
         | None =>
             let res := foldl (fun res s => res * s) 1 (arg_shape t) in
             put (mkTensorArg (arg_shape t) (Some res))
         end) >>
        let* t := get in
        match _cached_numel t with
        | Some n => ret (AInt n)
        | None => raise (AttributeError "_cached_numel")
        end
    | is_contiguous => ret (ABool true)
    | other_op _ => ret ANone
    end.

(** [PySymInt.wrap] *)
Definition wrap (self : PySymInt) (num : Z) : PySymInt :=
  mkPySymInt (Integer num) (shape_env self) (Some num).

(** Entering the modes of a list in order, and leaving the modes of a
    list in order, as nested [with] blocks do. *)
Fixpoint enter_all {U : Type} (ms : list mode) : M (DispatchStore U) unit :=
  match ms with
  | [] => ret tt
  | m :: rest => __enter__ m >> enter_all rest
  end.

Fixpoint exit_all {U : Type} (ms : list mode) : M (DispatchStore U) unit :=
  match ms with
  | [] => ret tt
  | m :: rest => __exit__ m >> exit_all rest
  end.

(** ** Notions used in the statements *)

(** [m] relates every world to the world it leaves behind. *)
Definition keeps {A : Type} (R : relation World) (m : M World A) : Prop :=
  forall w, R w (m w).2.

(** Only the memo tables changed. *)
Definition same_env : relation World := fun w w' =>
  env w' = env w /\ static_cache w' = static_cache w.

(** Only the values of [replacements] changed: same keys, and the rest of
    the environment as it was. *)
Definition links_only : relation World := fun w w' =>
  guards (env w') = guards (env w) /\
  var_to_val (env w') = var_to_val (env w) /\
  divisible (env w') = divisible (env w) /\
  dom (replacements (env w')) = dom (replacements (env w)) /\
  static_cache w' = static_cache w.

(** As [links_only], and [divisible] may have changed. *)
Definition facts_only : relation World := fun w w' =>
  guards (env w') = guards (env w) /\
  var_to_val (env w') = var_to_val (env w) /\
  dom (replacements (env w')) = dom (replacements (env w)) /\
  static_cache w' = static_cache w.

(** Guards were appended, keys of [replacements] and members of
    [divisible] were added. *)
Definition tracing : relation World := fun w w' =>
  guards (env w) `prefix_of` guards (env w') /\
  var_to_val (env w') = var_to_val (env w) /\
  dom (replacements (env w)) ⊆ dom (replacements (env w')) /\
  divisible (env w) ⊆ divisible (env w') /\
  static_cache w' = static_cache w.

(** As [tracing], with the guard log as it was. *)
Definition solving : relation World := fun w w' =>
  guards (env w') = guards (env w) /\
  var_to_val (env w') = var_to_val (env w) /\
  dom (replacements (env w)) ⊆ dom (replacements (env w')) /\
  divisible (env w) ⊆ divisible (env w') /\
  static_cache w' = static_cache w.

(** No key of [replacements] was removed. *)
Definition grows : relation World := fun w w' =>
  dom (replacements (env w)) ⊆ dom (replacements (env w')).

Section Notions.
Context `{sympy.Ops}.
Variable recursion_limit : nat.

(** The outcome of [maybe_evaluate_static]'s body: it reads nothing of
    the world. *)
Definition static_outcome (e : expr) : result (option expr) :=
  let symbols := free_symbols e in
  let new_shape_env : gmap expr expr :=
    list_to_map (imap (fun idx k => (k, placeholder idx)) symbols) in
  Py.rbind (xreplace recursion_limit e new_shape_env) (fun new_expr =>
  let new_expr := sympy.expand new_expr in
  Ok (if (length (free_symbols new_expr) =? 0)%nat
      then Some new_expr else None)).

(** Every entry of the memo table of [maybe_evaluate_static] is the
    outcome of the body on its key. *)
Definition static_coherent (w : World) : Prop :=
  forall k r, fn_cache (static_cache w) !! k = Some r ->
              static_outcome k = Ok r.

(** [evaluate_expr] may drop members of [divisible] (through [simplify])
    but keeps the bindings, the logged guards and the keys of
    [replacements]. *)
Definition evaluating : relation World := fun w w' =>
  guards (env w) `prefix_of` guards (env w') /\
  var_to_val (env w') = var_to_val (env w) /\
  dom (replacements (env w)) ⊆ dom (replacements (env w')) /\
  (static_coherent w -> static_coherent w').

End Notions.

(** The first key of a list, if any, is below all the others. *)
Definition head_least (l : list ((Z * string) * expr)) : Prop :=
  match l with
  | [] => True
  | kx :: rest => Forall (fun ky => key_le kx.1 ky.1 = true) rest
  end.

Fixpoint ascending (l : list ((Z * string) * expr)) : Prop :=
  match l with
  | [] => True
  | kx :: rest => head_least l /\ ascending rest
  end.

(** The world after [self.guards.append((e, v))]. *)
Definition logged (e v : expr) (w : World) : World :=
  set_env (set_guards (guards (env w) ++ [(e, v)]) (env w)) w.

(** The world after [self.replacements[x] = root]. *)
Definition linked (x root : expr) (w : World) : World :=
  set_env (set_replacements (<[x := root]> (replacements (env w))) (env w)) w.

(** The products of the suffixes of a list of sizes, the whole list
    first and the empty suffix last. *)
Fixpoint suffix_products {A : Type} (one : A) (mul : A -> A -> A)
  (sizes : list A) : list A :=
  match sizes with
  | [] => [one]
  | x :: rest => mul x (foldr mul one rest) :: suffix_products one mul rest
  end.

Definition is_create_symint (o : operation) : bool :=
  match o with op_create_symint _ _ => true | _ => false end.

(** Guards were appended and symbols were bound. *)
Definition recording : relation World := fun w w' =>
  guards (env w) `prefix_of` guards (env w') /\
  dom (var_to_val (env w)) ⊆ dom (var_to_val (env w')).

(** Guards were appended, with the bindings as they were. *)
Definition reading : relation World := fun w w' =>
  guards (env w) `prefix_of` guards (env w') /\
  var_to_val (env w') = var_to_val (env w).

(** A tensor leaf with at least one dimension. *)
Definition has_dimension (x : leaf) : bool :=
  match x with
  | LTensor t => negb (length (shape t) =? 0)%nat
  | LOther _ => false
  end.

(** What [create_shape] returns for a leaf whose sizes need no symbol. *)
Definition pass_through (x : leaf) : shaped :=
  match x with
  | LTensor _ => OutShape []
  | LOther v => Passed v
  end.

(** [a] leads to [r] along [replacements], and [r] is not a key. *)
Inductive resolves (repl : gmap expr expr) : expr -> expr -> Prop :=
| resolves_here (a : expr) : repl !! a = None -> resolves repl a a
| resolves_step (a b r : expr) :
    repl !! a = Some b -> resolves repl b r -> resolves repl a r.

(** The world after a call that returned may differ in the memo tables of
    [simplify] and [maybe_evaluate_static] only. *)
Definition tables_only (w w' : World) : Prop :=
  env w' = env w /\ size_hint_cache w' = size_hint_cache w /\
  update_cache w' = update_cache w.

(** * Properties *)

(** ** Running the monad *)

Lemma bind_ok {S A B} (m : M S A) (k : A -> M S B) s a s' :
  m s = (Ok a, s') -> Py.bind m k s = k a s'.
Proof. intros E. unfold Py.bind. by rewrite E. Qed.

Lemma bind_raise {S A B} (m : M S A) (k : A -> M S B) s e s' :
  m s = (Raise e, s') -> Py.bind m k s = (Raise e, s').
Proof. intros E. unfold Py.bind. by rewrite E. Qed.

(** ** [FloorDiv] on concrete operands *)

Section FloorDivFacts.
Context `{sympy.Ops}.

Lemma floor_quotient a b :
  b ≠ 0 ->
  (0 < b -> b * (a `div` b) <= a < b * (a `div` b + 1)) /\
  (b < 0 -> b * (a `div` b + 1) < a <= b * (a `div` b)).
Proof.
  intros Hb. pose proof (Z.div_mod a b Hb) as Hdm. split; intros Hs.
  - pose proof (Z.mod_pos_bound a b Hs). lia.
  - pose proof (Z.mod_neg_bound a b Hs). lia.
Qed.

(** C6: on concrete integers [a] and [b], [b] not zero, [FloorDiv(a, b)]
    evaluates at once to the integer [q = a // b], the floor of the
    quotient: [b*q <= a < b*(q+1)] for a positive [b] and
    [b*(q+1) < a <= b*q] for a negative one, whatever the sign of [a]; the
    result is an [Integer], not a [FloorDiv] node. *)
Theorem FloorDiv_of_integers (depth : nat) (a b : Z) :
  b ≠ 0 ->
  exists q : Z,
    FloorDiv (S depth) (Integer a) (Integer b) = Ok (Integer q) /\
    q = a `div` b /\
    (0 < b -> b * q <= a < b * (q + 1)) /\
    (b < 0 -> b * (q + 1) < a <= b * q).
Proof.
  intros Hb. exists (a `div` b).
  split; [|split; [done | by apply floor_quotient]].
  cbn [FloorDiv]. destruct (decide (Integer a = Integer 0)) as [E|_].
  - injection E as ->. by rewrite Z.div_0_l.
  - destruct (decide (Integer b = Integer 1)) as [E|_].
    + injection E as ->. by rewrite Z.div_1_r.
    + by rewrite decide_False.
Qed.

(** C7: [FloorDiv(0, d)] is [0] for every divisor [d] other than zero,
    and [FloorDiv(x, 1)] is [x] for every base [x]. *)
Theorem FloorDiv_zero_base_unit_divisor (depth : nat) (d x : expr) :
  d ≠ Integer 0 ->
  FloorDiv (S depth) (Integer 0) d = Ok (Integer 0) /\
  FloorDiv (S depth) x (Integer 1) = Ok x.
Proof.
  intros _. split; cbn [FloorDiv].
  - by rewrite decide_True.
  - destruct (decide (x = Integer 0)) as [->|_]; [done|].
    by rewrite decide_True.
Qed.

End FloorDivFacts.

(** Mixed signs round down: [-7 // 2] is [-4] and [7 // -2] is [-4]. *)
Lemma FloorDiv_of_integers_witness :
  (2 ≠ 0 /\ exists q : Z,
     FloorDiv (H := Fragment.ops) 1 (Integer (-7)) (Integer 2)
       = Ok (Integer q) /\
     q = -4 /\
     (0 < 2 -> 2 * q <= -7 < 2 * (q + 1)) /\
     (2 < 0 -> 2 * (q + 1) < -7 <= 2 * q)).
Proof.
  split; [lia|].
  exact (FloorDiv_of_integers (H := Fragment.ops) 0 (-7) 2 ltac:(lia)).
Defined.

Lemma FloorDiv_zero_base_unit_divisor_witness :
  Fragment.s0 ≠ Integer 0 /\
  FloorDiv (H := Fragment.ops) 1 (Integer 0) Fragment.s0 = Ok (Integer 0) /\
  FloorDiv (H := Fragment.ops) 1 Fragment.s0 (Integer 1) = Ok Fragment.s0.
Proof.
  split; [discriminate|].
  exact (FloorDiv_zero_base_unit_divisor (H := Fragment.ops) 0
           Fragment.s0 Fragment.s0 ltac:(discriminate)).
Defined.

(** ** Replaying the guards *)

Section ReplayFacts.
Context `{sympy.Ops}.
Variable recursion_limit : nat.
Variable HAS_SYMPY : bool.

(** C1: [evaluate_guards_for_args] never gets to check a guard.  It calls
    [create_shapes_for_args] with the keyword [var_to_val], which that
    method does not take, so the call raises [TypeError] for every
    environment and every argument list, and leaves the world as it was. *)
Theorem evaluate_guards_for_args_raises (args : list pytree) (w : World) :
  evaluate_guards_for_args recursion_limit HAS_SYMPY args w =
    (Raise (TypeError
       "create_shapes_for_args() got an unexpected keyword argument 'var_to_val'"),
     w).
Proof. reflexivity. Qed.

End ReplayFacts.

(** ** The generated operators *)

Section OperatorFacts.
Context `{sympy.Ops}.
Context {U : Type}.
Variable __sym_dispatch__ : mode -> handler (U := U).

Lemma reflectable_names :
  (reflectable_magic_methods).*1 = ["add"; "sub"; "mul"; "mod"; "floordiv"].
Proof. reflexivity. Qed.

(** The three attributes the loop sets for a reflectable entry all hold
    the implementation created from that entry's lambda. *)
Lemma PySymInt_attrs_reflectable
  (create : string -> binop -> PySymInt -> value -> M (DispatchStore U) value)
  (name : string) :
  name ∈ (reflectable_magic_methods).*1 ->
  exists func,
    table_get name reflectable_magic_methods = Some func /\
    PySymInt_attrs create !! name = Some (create name func) /\
    PySymInt_attrs create !! ("__" +:+ name +:+ "__")
      = Some (create name func) /\
    PySymInt_attrs create !! ("__r" +:+ name +:+ "__")
      = Some (create name func).
Proof.
  rewrite reflectable_names. intros Hin.
  repeat (apply elem_of_cons in Hin as [->|Hin]);
    [| | | | |by apply elem_of_nil in Hin];
    (eexists; split; [reflexivity|]; repeat split; vm_compute; reflexivity).
Qed.

(** With no mode active, [magic_impl] applies the lambda to [self.expr]
    and the operand, in this order. *)
Lemma magic_impl_default (depth : nat) (name : string) (func : binop)
  (a : PySymInt) (n : Z) (s : DispatchStore U) :
  SYM_FUNCTION_MODE s = None ->
  magic_impl __sym_dispatch__ (S depth) name func a (VInt n) s
  = match func depth (expr_of a) (Integer n) with
    | Ok e => (Ok (VSymInt (mkPySymInt e (shape_env a) None)), s)
    | Raise exc => (Raise exc, s)
    end.
Proof.
  intros Hnone. cbn [magic_impl]. unfold Py.bind at 1. cbn [Py.get].
  rewrite Hnone. unfold Py.bind, Py.lift, Py.ret. cbn [sympify].
  by destruct (func depth (expr_of a) (Integer n)).
Qed.

(** C10: for each reflectable operator, the reflected attribute
    [__rOP__] of [PySymInt] and the forward attribute [__OP__] are the
    same implementation, created from the same lambda of the table, so
    [a.__rOP__(n)] is [a.__OP__(n)] in every store; with no mode active
    the lambda gets [a.expr] on the left, so that [n - a], which Python
    turns into [a.__rsub__(n)], yields the expression [a.expr - n]. *)
Theorem reflected_is_forward (depth : nat) (name : string) (a : PySymInt)
  (n : Z) (s : DispatchStore U) :
  name ∈ (reflectable_magic_methods).*1 ->
  call_method __sym_dispatch__ depth ("__r" +:+ name +:+ "__") a (VInt n) s
    = call_method __sym_dispatch__ depth ("__" +:+ name +:+ "__") a (VInt n) s
  /\ (exists func,
        table_get name reflectable_magic_methods = Some func /\
        call_method __sym_dispatch__ depth ("__r" +:+ name +:+ "__")
          a (VInt n) s
        = magic_impl __sym_dispatch__ depth name func a (VInt n) s /\
        (SYM_FUNCTION_MODE s = None ->
         call_method __sym_dispatch__ (S depth) ("__r" +:+ name +:+ "__")
           a (VInt n) s
         = match func depth (expr_of a) (Integer n) with
           | Ok e => (Ok (VSymInt (mkPySymInt e (shape_env a) None)), s)
           | Raise exc => (Raise exc, s)
           end))
  /\ (SYM_FUNCTION_MODE s = None ->
      call_method __sym_dispatch__ (S depth) "__rsub__" a (VInt n) s
      = (Ok (VSymInt (mkPySymInt (sympy.sub (expr_of a) (Integer n))
                        (shape_env a) None)), s)).
Proof.
  intros Hin.
  assert (Hgen : forall d,
    exists func, table_get name reflectable_magic_methods = Some func /\
      call_method __sym_dispatch__ d ("__" +:+ name +:+ "__") a (VInt n) s
        = magic_impl __sym_dispatch__ d name func a (VInt n) s /\
      call_method __sym_dispatch__ d ("__r" +:+ name +:+ "__") a (VInt n) s
        = magic_impl __sym_dispatch__ d name func a (VInt n) s).
  { intros d.
    destruct (PySymInt_attrs_reflectable (magic_impl __sym_dispatch__ d)
                name Hin) as (func & Hf & _ & Hfw & Hrv).
    exists func. unfold call_method. by rewrite Hfw, Hrv. }
  split; [|split].
  - destruct (Hgen depth) as (func & _ & -> & ->). done.
  - destruct (Hgen depth) as (func & Hf & _ & Hrv).
    exists func. split; [done|]. split; [done|].
    intros Hnone.
    destruct (Hgen (S depth)) as (func' & Hf' & _ & ->).
    rewrite Hf in Hf'. injection Hf' as <-.
    by apply magic_impl_default.
  - intros Hnone.
    destruct (PySymInt_attrs_reflectable
                (magic_impl __sym_dispatch__ (S depth)) "sub")
      as (func & Hf & _ & _ & Hrv).
    { rewrite reflectable_names. apply list_elem_of_further, list_elem_of_here. }
    injection Hf as <-.
    unfold call_method.
    change ("__r" +:+ "sub" +:+ "__") with "__rsub__" in Hrv.
    rewrite Hrv. by rewrite magic_impl_default.
Qed.

End OperatorFacts.

(** ** The dispatch-mode slot *)

Section DispatchFacts.
Context {U : Type}.

Lemma enter_entered (self : mode) (s : DispatchStore U) :
  entered s self ->
  __enter__ self s = (Raise (RuntimeError already_used), s).
Proof.
  intros [i Hi]. unfold __enter__, Py.bind, Py.get. by rewrite Hi.
Qed.

Lemma enter_fresh (self : mode) (s : DispatchStore U) :
  inner s !! self = None ->
  __enter__ self s =
    (Ok self,
     mkDispatchStore (Some self)
       (<[self := SYM_FUNCTION_MODE s]> (inner s)) (user s)).
Proof.
  intros Hi. unfold __enter__, Py.bind, Py.get. by rewrite Hi.
Qed.

Lemma enter_keeps_entered (self m : mode) (s : DispatchStore U) :
  entered s m -> entered (__enter__ self s).2 m.
Proof.
  intros Hm. destruct (inner s !! self) as [i|] eqn:Hi.
  - by rewrite enter_entered by (by eexists).
  - rewrite enter_fresh by done. unfold entered. cbn.
    destruct (decide (self = m)) as [->|Hne].
    + rewrite lookup_insert_eq. eauto.
    + by rewrite lookup_insert_ne.
Qed.

Lemma exit_keeps_entered (self m : mode) (s : DispatchStore U) :
  entered s m -> entered (__exit__ self s).2 m.
Proof.
  intros Hm. unfold __exit__, Py.bind, Py.get.
  by destruct (inner s !! self).
Qed.

Lemma empty_well_formed (u : U) : well_formed (mkDispatchStore None ∅ u).
Proof.
  split; cbn.
  - discriminate.
  - intros m m'. by rewrite lookup_empty.
  - intros m. by rewrite lookup_empty.
Qed.

Lemma enter_well_formed (self : mode) (s : DispatchStore U) :
  well_formed s -> well_formed (__enter__ self s).2.
Proof.
  intros [Ha Hi Hr]. destruct (inner s !! self) as [i|] eqn:Hself.
  - rewrite enter_entered by (by eexists). by split.
  - rewrite enter_fresh by done. split; unfold entered; cbn.
    + intros m [= <-]. rewrite lookup_insert_eq. eauto.
    + intros m m'. destruct (decide (self = m)) as [->|Hne].
      * rewrite lookup_insert_eq. intros [= Hold].
        destruct (Ha _ Hold) as [j Hj].
        destruct (decide (m = m')) as [->|Hne']; [congruence|].
        rewrite lookup_insert_ne by done. eauto.
      * rewrite lookup_insert_ne by done. intros Hm.
        destruct (Hi _ _ Hm) as [j Hj].
        destruct (decide (self = m')) as [->|Hne']; [congruence|].
        rewrite lookup_insert_ne by done. eauto.
    + intros m. destruct (decide (self = m)) as [->|Hne].
      * rewrite lookup_insert_eq. intros [= Hold].
        destruct (Ha _ Hold) as [j Hj]. congruence.
      * rewrite lookup_insert_ne by done. apply Hr.
Qed.

Lemma exit_well_formed (self : mode) (s : DispatchStore U) :
  well_formed s -> well_formed (__exit__ self s).2.
Proof.
  intros [Ha Hi Hr]. unfold __exit__, Py.bind, Py.get.
  destruct (inner s !! self) as [i|] eqn:Hself; [|by split].
  split; cbn; [|done|done].
  intros m ->. by eapply Hi.
Qed.

End DispatchFacts.

Section UsageErrors.

(** C9: the three usage errors raise at once.  [int()] on a symbolic
    integer raises [RuntimeError]; [__enter__] on a mode object that has
    been entered (the attribute [inner] is set by the first [__enter__]
    and kept by every later [__enter__] and [__exit__]) raises
    [RuntimeError] and leaves the store alone; [create_symint] without
    sympy raises [RuntimeError] and leaves the world alone. *)
Theorem usage_errors_raise :
  (forall p : PySymInt,
     __int__ p =
       Raise (RuntimeError
                "Trying to extract a concrete int out of a symbolic int"))
  /\ (forall (U : Type) (self : mode) (s s1 : DispatchStore U) (r : mode),
        __enter__ self s = (Ok r, s1) ->
        entered s1 self /\
        (forall other, entered (__enter__ other s1).2 self /\
                       entered (__exit__ other s1).2 self) /\
        forall s2 : DispatchStore U, entered s2 self ->
          __enter__ self s2 = (Raise (RuntimeError already_used), s2))
  /\ (forall (name : string) (val : Z) (w : World),
        create_symint false name val w =
          (Raise (RuntimeError
                    "Need sympy installed to create symbolic shapes"), w)).
Proof.
  split; [done|]. split; [|done].
  intros U self s s1 r Henter.
  assert (Hs1 : entered s1 self).
  { destruct (inner s !! self) as [i|] eqn:Hi.
    - rewrite enter_entered in Henter by (by eexists). discriminate.
    - rewrite enter_fresh in Henter by done. injection Henter as _ <-.
      unfold entered. cbn. rewrite lookup_insert_eq. eauto. }
  split; [done|]. split.
  - intros other. split.
    + by apply enter_keeps_entered.
    + by apply exit_keeps_entered.
  - intros s2. apply enter_entered.
Qed.

End UsageErrors.

(** A mode entered on an empty store and entered again. *)
Lemma usage_errors_raise_witness :
  let s : DispatchStore unit := mkDispatchStore None ∅ tt in
  let s1 : DispatchStore unit := mkDispatchStore (Some 1%nat) {[ 1%nat := None ]} tt in
  __enter__ 1%nat s = (Ok 1%nat, s1) /\
  __enter__ 1%nat s1 = (Raise (RuntimeError already_used), s1) /\
  __enter__ 1%nat (__exit__ 1%nat s1).2
    = (Raise (RuntimeError already_used), (__exit__ 1%nat s1).2).
Proof.
  intros s s1.
  assert (E : __enter__ 1%nat s = (Ok 1%nat, s1)) by reflexivity.
  destruct usage_errors_raise as (_ & Hmode & _).
  destruct (Hmode unit 1%nat s s1 1%nat E) as (Hent & Hkeep & Hraise).
  split; [exact E|]. split.
  - exact (Hraise s1 Hent).
  - exact (Hraise _ (proj2 (Hkeep 1%nat))).
Defined.

(** ** Routing of an intercepted operation *)

Section DispatchRouting.
Context `{sympy.Ops}.
Context {U : Type}.
Variable __sym_dispatch__ : mode -> handler (U := U).

(** What [magic_impl] does under an active mode [m] with inner link
    [i]: the handler of [m] runs in the store whose slot holds [i], its
    outcome is the outcome of the operation, and the slot holds [m]
    again afterwards. *)
Lemma magic_impl_dispatch (depth : nat) (name : string) (func : binop)
  (a : PySymInt) (b : value) (s : DispatchStore U) (m : mode)
  (i : option mode) :
  SYM_FUNCTION_MODE s = Some m ->
  inner s !! m = Some i ->
  magic_impl __sym_dispatch__ (S depth) name func a b s =
    let out := __sym_dispatch__ m (call_method __sym_dispatch__ depth)
                 (operator_ name) [VSymInt a; b]
                 (set_SYM_FUNCTION_MODE i s) in
    (out.1, set_SYM_FUNCTION_MODE (Some m) out.2).
Proof.
  intros Hm Hi. cbn [magic_impl]. unfold Py.bind at 1. cbn [Py.get].
  rewrite Hm. unfold _handle_sym_dispatch. unfold Py.bind at 1. cbn [Py.get].
  rewrite Hm, Hi. unfold Py.bind, Py.modify, Py.finally. cbn zeta.
  unfold call_method.
  by destruct (__sym_dispatch__ m _ _ _ _).
Qed.

(** With no mode active no handler runs: the lambda is applied. *)
Lemma magic_impl_no_mode (depth : nat) (name : string) (func : binop)
  (a : PySymInt) (b : value) (s : DispatchStore U) :
  SYM_FUNCTION_MODE s = None ->
  magic_impl __sym_dispatch__ (S depth) name func a b s =
    (Py.rbind
       (sympify match b with VSymInt o => VExpr (expr_of o) | _ => b end)
       (fun b' => Py.rbind (func depth (expr_of a) b') (fun e =>
          Ok (VSymInt (mkPySymInt e (shape_env a) None)))), s).
Proof.
  intros Hnone. cbn [magic_impl]. unfold Py.bind at 1. cbn [Py.get].
  rewrite Hnone. unfold Py.bind, Py.lift, Py.ret.
  destruct (sympify _); cbn; [|done].
  by destruct (func depth (expr_of a) _).
Qed.


End DispatchRouting.


Lemma reflected_is_forward_witness :
  let s : DispatchStore unit := mkDispatchStore None ∅ tt in
  "sub" ∈ (reflectable_magic_methods (H := Fragment.ops)).*1 /\
  call_method (H := Fragment.ops) (fun _ _ _ _ => ret VNone) 2 "__rsub__"
    Scenario.x (VInt 3) s
  = (Ok (VSymInt (mkPySymInt (App HAdd Fragment.s0 (Integer (-3))) 0 None)),
     s).
Proof.
  intros s.
  assert (Hin : "sub" ∈ (reflectable_magic_methods (H := Fragment.ops)).*1).
  { apply list_elem_of_further, list_elem_of_here. }
  split; [exact Hin|].
  destruct (reflected_is_forward (H := Fragment.ops)
              (fun _ _ _ _ => ret VNone) 1 "sub" Scenario.x 3 s Hin)
    as (_ & _ & Hsub).
  exact (Hsub eq_refl).
Defined.

(** ** What an operation of the environment leaves alone *)

Section Keeps.
Context (R : relation World) `{!PreOrder R}.

Lemma keeps_ret {A} (a : A) : keeps R (ret a).
Proof. intros w. reflexivity. Qed.

Lemma keeps_raise {A} (e : exn) : keeps R (raise (A := A) e).
Proof. intros w. reflexivity. Qed.

Lemma keeps_lift {A} (r : result A) : keeps R (lift r).
Proof. intros w. reflexivity. Qed.

Lemma keeps_get : keeps R get.
Proof. intros w. reflexivity. Qed.

Lemma keeps_modify (f : World -> World) :
  (forall w, R w (f w)) -> keeps R (modify f).
Proof. intros Hf w. apply Hf. Qed.

Lemma keeps_bind {A B} (m : M World A) (k : A -> M World B) :
  keeps R m -> (forall a, keeps R (k a)) -> keeps R (Py.bind m k).
Proof.
  intros Hm Hk w. unfold Py.bind. specialize (Hm w).
  destruct (m w) as [[a|e] w']; cbn in *; [|done].
  etrans; [exact Hm|apply Hk].
Qed.

Lemma keeps_forget {A} (m : M World A) : keeps R m -> keeps R (forget m).
Proof.
  intros Hm w. unfold forget. specialize (Hm w).
  by destruct (m w) as [[a|e] w'].
Qed.

(** A wrapped function keeps what the function keeps, when the relation
    does not look at the wrapper's closure. *)
Lemma keeps_lru_cache {K V} `{Countable K}
  (cache_of : World -> lru K V) (set_cache : lru K V -> World -> World)
  (fn : K -> M World V) (args : K) :
  (forall c w, R w (set_cache c w)) ->
  keeps R (fn args) ->
  keeps R (_lru_cache cache_of set_cache fn args).
Proof.
  intros Hset Hfn. unfold _lru_cache.
  apply keeps_bind; [apply keeps_get|]. intros w0.
  apply keeps_bind.
  { case_decide; [apply keeps_ret|by apply keeps_modify]. }
  intros _. apply keeps_bind; [apply keeps_get|]. intros w1.
  destruct (fn_cache (cache_of w1) !! args); [apply keeps_ret|].
  apply keeps_bind; [done|]. intros v.
  apply keeps_bind; [|intros; apply keeps_ret].
  apply keeps_modify. intros w. apply Hset.
Qed.

End Keeps.

Lemma keeps_weaken {A} (R R' : relation World) (m : M World A) :
  (forall w w', R w w' -> R' w w') -> keeps R m -> keeps R' m.
Proof. intros HR Hm w. apply HR, Hm. Qed.

(** The wrapper, step by step: drop the table when the fingerprint
    moved, answer from the table on a hit, else call the function and
    store what it returned. *)
Lemma lru_cache_unfold {K V} `{Countable K}
  (cache_of : World -> lru K V) (set_cache : lru K V -> World -> World)
  (fn : K -> M World V) (args : K) (w : World) :
  _lru_cache cache_of set_cache fn args w =
    let w0 := if decide (prior_key (cache_of w) = Some (_get_key (env w)))
              then w
              else set_cache (mkLru (Some (_get_key (env w))) ∅) w in
    match fn_cache (cache_of w0) !! args with
    | Some v => (Ok v, w0)
    | None =>
        match fn args w0 with
        | (Ok v, w1) =>
            (Ok v,
             set_cache (mkLru (prior_key (cache_of w1))
                          (<[args := v]> (fn_cache (cache_of w1)))) w1)
        | (Raise e, w1) => (Raise e, w1)
        end
    end.
Proof.
  unfold _lru_cache, Py.bind, Py.get, Py.modify, Py.ret. cbn zeta.
  case_decide; cbn.
  - destruct (fn_cache (cache_of w) !! args); [done|].
    by destruct (fn args w) as [[v|e] w1].
  - destruct (fn_cache (cache_of (set_cache _ w)) !! args); [done|].
    by destruct (fn args _) as [[v|e] w1].
Qed.

Global Instance same_env_preorder : PreOrder same_env.
Proof.
  split; [by intros w|]. unfold same_env.
  intros w1 w2 w3 [??] [??]. split; congruence.
Qed.

Global Instance links_only_preorder : PreOrder links_only.
Proof.
  split; [by intros w|]. unfold links_only.
  intros w1 w2 w3 (?&?&?&?&?) (?&?&?&?&?). repeat split; congruence.
Qed.

Global Instance facts_only_preorder : PreOrder facts_only.
Proof.
  split; [by intros w|]. unfold facts_only.
  intros w1 w2 w3 (?&?&?&?) (?&?&?&?). repeat split; congruence.
Qed.

Global Instance tracing_preorder : PreOrder tracing.
Proof.
  split; [by intros w|]. unfold tracing.
  intros w1 w2 w3 (?&?&?&?&?) (?&?&?&?&?).
  split; [by etrans|]. split; [congruence|].
  split; [by etrans|]. split; [by etrans|congruence].
Qed.

Global Instance solving_preorder : PreOrder solving.
Proof.
  split; [by intros w|]. unfold solving.
  intros w1 w2 w3 (?&?&?&?&?) (?&?&?&?&?).
  split; [congruence|]. split; [congruence|].
  split; [by etrans|]. split; [by etrans|congruence].
Qed.

Lemma solving_tracing w w' : solving w w' -> tracing w w'.
Proof. unfold solving, tracing. intros (-> & ?). done. Qed.

Lemma links_only_solving w w' : links_only w w' -> solving w w'.
Proof.
  unfold links_only, solving. intros (Hg & Hv & Hd & Hr & Hs).
  rewrite Hg, Hv, Hd, Hr, Hs. done.
Qed.

Global Instance grows_preorder : PreOrder grows.
Proof.
  unfold grows. split; [by intros w|]. intros w1 w2 w3 ??. by etrans.
Qed.

Lemma links_only_facts_only w w' : links_only w w' -> facts_only w w'.
Proof. unfold links_only, facts_only. intros (?&?&?&?&?). done. Qed.

Lemma links_only_tracing w w' : links_only w w' -> tracing w w'.
Proof.
  unfold links_only, tracing. intros (Hg & Hv & Hd & Hr & Hs).
  rewrite Hg, Hv, Hd, Hr, Hs. done.
Qed.

Lemma facts_only_grows w w' : facts_only w w' -> grows w w'.
Proof. unfold facts_only, grows. intros (_ & _ & -> & _). done. Qed.

Lemma tracing_grows w w' : tracing w w' -> grows w w'.
Proof. unfold tracing, grows. intros (_ & _ & Hr & _). done. Qed.

Section EnvironmentFacts.
Context `{sympy.Ops}.
Variable recursion_limit : nat.
Variable HAS_SYMPY : bool.

Lemma compress_dom (fuel : nat) (root : expr) (repl repl' : gmap expr expr)
  (a : expr) :
  compress fuel root repl a = Ok repl' -> dom repl' = dom repl.
Proof.
  revert repl a. induction fuel as [|fuel IH]; intros repl a; cbn.
  - destruct (repl !! a); [done|]. by intros [= ->].
  - destruct (repl !! a) as [next|] eqn:Ha; [|by intros [= ->]].
    intros Hc. rewrite (IH _ _ Hc). rewrite dom_insert_L.
    apply elem_of_dom_2 in Ha. apply subseteq_union_1_L.
    by apply singleton_subseteq_l.
Qed.

Lemma find_links_only (a : expr) : keeps links_only (find a).
Proof.
  intros w. unfold find, Py.bind, Py.get, Py.lift, Py.modify, Py.ret.
  destruct (find_root _ _ a) as [root|e]; [|done].
  destruct (compress _ root _ a) as [repl'|e] eqn:Hc; [|done].
  cbn. repeat split; try done. by apply compress_dom in Hc.
Qed.

Lemma find_all_links_only (symbols : list expr) :
  keeps links_only (find_all symbols).
Proof.
  induction symbols as [|x rest IH]; cbn [find_all].
  - apply keeps_ret; apply _.
  - apply keeps_bind; [apply _|apply find_links_only|]. intros r.
    apply keeps_bind; [apply _|apply IH|]. intros m.
    apply keeps_ret; apply _.
Qed.

Lemma replace_links_only (e : expr) : keeps links_only (replace recursion_limit e).
Proof.
  unfold replace. apply keeps_bind; [apply _|apply find_all_links_only|].
  intros rule. apply keeps_lift; apply _.
Qed.

Lemma refresh_links_only (terms : list expr) (acc : gset expr) :
  keeps links_only (refresh recursion_limit terms acc).
Proof.
  revert acc. induction terms as [|a rest IH]; intros acc; cbn [refresh].
  - apply keeps_ret; apply _.
  - apply keeps_bind; [apply _|apply replace_links_only|]. intros r. apply IH.
Qed.

Lemma update_divisible_facts_only :
  keeps facts_only (update_divisible recursion_limit).
Proof.
  unfold update_divisible. apply keeps_lru_cache; [apply _|by intros c w|].
  unfold update_divisible_body.
  apply keeps_bind; [apply _|apply keeps_get; apply _|]. intros w0.
  apply keeps_bind; [apply _| |].
  - eapply keeps_weaken; [apply links_only_facts_only|].
    apply refresh_links_only.
  - intros d. apply keeps_modify. by intros w.
Qed.

Lemma rewrite_divisible_pure (l : list expr) (e : expr) :
  keeps eq (rewrite_divisible recursion_limit l e).
Proof.
  revert e. induction l as [|atom rest IH]; intros e; cbn [rewrite_divisible].
  - apply keeps_ret; apply _.
  - apply keeps_bind; [apply _|apply keeps_get; apply _|]. intros w0.
    destruct atom; try apply IH.
    case_decide; [|apply IH].
    apply keeps_bind; [apply _|apply keeps_lift; apply _|]. intros e'.
    apply IH.
Qed.

Lemma simplify_body_facts_only (e : expr) :
  keeps facts_only (simplify_body recursion_limit e).
Proof.
  unfold simplify_body. apply keeps_bind; [apply _| |].
  - eapply keeps_weaken; [apply links_only_facts_only|].
    apply replace_links_only.
  - intros r. case_decide; [|apply keeps_ret; apply _].
    apply keeps_bind; [apply _|apply update_divisible_facts_only|]. intros _.
    apply keeps_bind; [apply _| |intros; apply keeps_ret; apply _].
    eapply keeps_weaken; [|apply rewrite_divisible_pure].
    by intros w w' <-.
Qed.

Lemma simplify_facts_only (e : expr) :
  keeps facts_only (simplify recursion_limit e).
Proof.
  unfold simplify. apply keeps_lru_cache; [apply _|by intros c w|].
  apply simplify_body_facts_only.
Qed.

Lemma size_hint_same_env (e : expr) : keeps same_env (size_hint recursion_limit e).
Proof.
  unfold size_hint. apply keeps_bind; [apply _|apply keeps_get; apply _|].
  intros w0. destruct (size_hint_cache w0 !! e); [apply keeps_ret; apply _|].
  apply keeps_bind; [apply _| |].
  - unfold size_hint_body.
    apply keeps_bind; [apply _|apply keeps_get; apply _|]. intros w1.
    apply keeps_bind; [apply _|apply keeps_lift; apply _|]. intros r.
    destruct (_ && _); [apply keeps_raise|apply keeps_ret]; apply _.
  - intros v. apply keeps_bind; [apply _| |intros; apply keeps_ret; apply _].
    apply keeps_modify. by intros w.
Qed.

Lemma maybe_evaluate_static_body_pure (e : expr) (w : World) :
  maybe_evaluate_static_body recursion_limit e w = (static_outcome recursion_limit e, w).
Proof.
  unfold maybe_evaluate_static_body, static_outcome, Py.bind, Py.lift.
  destruct (xreplace _ e _) as [new_expr|exc]; cbn; [|done].
  by destruct (_ =? _)%nat.
Qed.

Lemma World_init_static_coherent : static_coherent recursion_limit World_init.
Proof. intros k r. cbn. by rewrite lookup_empty. Qed.

Lemma maybe_evaluate_static_env (e : expr) (w : World) :
  env (maybe_evaluate_static recursion_limit e w).2 = env w.
Proof.
  revert w. change (keeps (fun w w' => env w' = env w)
                      (maybe_evaluate_static recursion_limit e)).
  assert (PreOrder (fun w w' : World => env w' = env w)).
  { split; [by intros w|]. intros w1 w2 w3 ??. congruence. }
  apply keeps_lru_cache; [done|by intros c w|].
  intros w. by rewrite maybe_evaluate_static_body_pure.
Qed.

(** On a coherent table the wrapped function answers as its body would,
    and leaves the environment alone and the table coherent. *)
Lemma maybe_evaluate_static_outcome (e : expr) (w : World) :
  static_coherent recursion_limit w ->
  let out := maybe_evaluate_static recursion_limit e w in
  out.1 = static_outcome recursion_limit e /\ env out.2 = env w /\ static_coherent recursion_limit out.2.
Proof.
  intros Hco. cbn zeta. unfold maybe_evaluate_static.
  rewrite lru_cache_unfold. cbn zeta.
  set (w0 := if decide (prior_key (static_cache w) = Some (_get_key (env w)))
             then w else _).
  assert (Hw0 : env w0 = env w /\ static_coherent recursion_limit w0).
  { subst w0. case_decide; [done|]. split; [done|].
    intros k r. cbn. by rewrite lookup_empty. }
  destruct Hw0 as [Henv0 Hco0]. clearbody w0.
  destruct (fn_cache (static_cache w0) !! e) as [v|] eqn:Hhit.
  - cbn. by rewrite (Hco0 _ _ Hhit).
  - rewrite maybe_evaluate_static_body_pure.
    destruct (static_outcome recursion_limit e) as [v|exc] eqn:Hout; cbn; [|done].
    split; [done|]. split; [done|].
    intros k r. cbn. destruct (decide (e = k)) as [<-|Hne].
    + rewrite lookup_insert_eq. by intros [= <-].
    + rewrite lookup_insert_ne by done. apply Hco0.
Qed.

End EnvironmentFacts.

(** ** The order of the sort keys *)

Lemma string_compare_refl (s : string) : String.compare s s = Eq.
Proof.
  induction s as [|c s IH]; cbn; [done|].
  unfold Ascii.compare. by rewrite N.compare_refl.
Qed.

Lemma string_compare_trans (c : comparison) (s1 s2 s3 : string) :
  String.compare s1 s2 = c -> String.compare s2 s3 = c ->
  String.compare s1 s3 = c.
Proof.
  revert s2 s3. induction s1 as [|c1 s1 IH]; intros [|c2 s2] [|c3 s3];
    cbn; try congruence.
  unfold Ascii.compare. intros H12 H23.
  destruct (N.compare_spec (N_of_ascii c1) (N_of_ascii c2));
    destruct (N.compare_spec (N_of_ascii c2) (N_of_ascii c3));
    destruct (N.compare_spec (N_of_ascii c1) (N_of_ascii c3));
    try lia; try congruence; eauto.
Qed.

Lemma string_leb_trans (s1 s2 s3 : string) :
  String.leb s1 s2 = true -> String.leb s2 s3 = true ->
  String.leb s1 s3 = true.
Proof.
  unfold String.leb.
  destruct (String.compare s1 s2) eqn:E12; [| |done];
    destruct (String.compare s2 s3) eqn:E23; try done; intros _ _.
  - by rewrite (string_compare_trans Eq s1 s2 s3).
  - apply String.compare_eq_iff in E12 as ->. by rewrite E23.
  - apply String.compare_eq_iff in E23 as <-. by rewrite E12.
  - by rewrite (string_compare_trans Lt s1 s2 s3).
Qed.

Lemma key_le_total (k1 k2 : Z * string) :
  key_le k1 k2 = true \/ key_le k2 k1 = true.
Proof.
  unfold key_le. destruct k1 as [z1 n1], k2 as [z2 n2]; cbn.
  destruct (Z.ltb_spec z1 z2); [by left|].
  destruct (Z.ltb_spec z2 z1); [by right|].
  assert (z1 = z2) as -> by lia. rewrite Z.eqb_refl. cbn.
  apply String.leb_total.
Qed.

Lemma key_le_trans (k1 k2 k3 : Z * string) :
  key_le k1 k2 = true -> key_le k2 k3 = true -> key_le k1 k3 = true.
Proof.
  unfold key_le. destruct k1 as [z1 n1], k2 as [z2 n2], k3 as [z3 n3]; cbn.
  intros H12 H23.
  apply orb_true_iff in H12 as [L12|[E12 N12]%andb_true_iff];
    apply orb_true_iff in H23 as [L23|[E23 N23]%andb_true_iff];
    apply orb_true_iff.
  - left. apply Z.ltb_lt. apply Z.ltb_lt in L12, L23. lia.
  - left. apply Z.ltb_lt. apply Z.ltb_lt in L12. apply Z.eqb_eq in E23. lia.
  - left. apply Z.ltb_lt. apply Z.ltb_lt in L23. apply Z.eqb_eq in E12. lia.
  - right. apply andb_true_iff. split.
    + apply Z.eqb_eq. apply Z.eqb_eq in E12, E23. lia.
    + by eapply string_leb_trans.
Qed.

(** The key of a larger hint comes first; on equal hints, the smaller
    name. *)
Lemma key_le_hint (h1 h2 : Z) (n1 n2 : string) :
  key_le (- h1, n1) (- h2, n2) = true <->
  h2 < h1 \/ (h1 = h2 /\ String.leb n1 n2 = true).
Proof.
  unfold key_le; cbn. rewrite orb_true_iff, andb_true_iff.
  rewrite Z.ltb_lt, Z.eqb_eq. split; intros [?|[? ?]]; [left|right|left|right];
    try split; try done; lia.
Qed.

Lemma insert_by_key_elem (kx ky : (Z * string) * expr) l :
  ky ∈ insert_by_key kx l <-> ky = kx \/ ky ∈ l.
Proof.
  induction l as [|kz rest IH]; cbn.
  - rewrite list_elem_of_singleton. split; [by left|].
    intros [?|Hnil]; [done|]. by apply elem_of_nil in Hnil.
  - destruct (key_le kx.1 kz.1).
    + by rewrite elem_of_cons.
    + rewrite !elem_of_cons, IH. tauto.
Qed.

Lemma insert_by_key_ascending (kx : (Z * string) * expr) l :
  ascending l -> ascending (insert_by_key kx l).
Proof.
  induction l as [|kz rest IH]; cbn.
  - intros _. split; [by apply Forall_nil|done].
  - intros [Hhead Hrest]. destruct (key_le kx.1 kz.1) eqn:Hle.
    + split; [|by split]. cbn. apply Forall_cons. split; [done|].
      eapply Forall_impl; [exact Hhead|]. cbn. intros ky Hky.
      by eapply key_le_trans.
    + split; [|by apply IH]. cbn.
      apply Forall_forall. intros ky Hky.
      apply insert_by_key_elem in Hky as [->|Hky].
      * destruct (key_le_total kx.1 kz.1); congruence.
      * by eapply (proj1 (Forall_forall _ _) Hhead).
Qed.

Lemma sorted_ascending (l : list ((Z * string) * expr)) :
  ascending (foldr insert_by_key [] l).
Proof.
  induction l as [|kx rest IH]; cbn; [done|].
  by apply insert_by_key_ascending.
Qed.

Lemma sorted_elem (ky : (Z * string) * expr) l :
  ky ∈ foldr insert_by_key [] l <-> ky ∈ l.
Proof.
  induction l as [|kx rest IH]; cbn; [done|].
  rewrite insert_by_key_elem, elem_of_cons, IH. done.
Qed.

(** [sorted(free, key=...)[0]] has the least key. *)
Lemma sorted_by_key_head (l : list ((Z * string) * expr)) (x : expr)
  (rest : list expr) :
  sorted_by_key l = x :: rest ->
  exists kx, (kx, x) ∈ l /\
    forall ky y, (ky, y) ∈ l -> key_le kx ky = true.
Proof.
  unfold sorted_by_key. intros Hs.
  pose proof (sorted_ascending l) as Hasc.
  destruct (foldr insert_by_key [] l) as [|[kx x'] tl] eqn:Hf; [done|].
  cbn in Hs. injection Hs as -> _.
  exists kx. split.
  - apply sorted_elem. rewrite Hf. apply list_elem_of_here.
  - intros ky y Hy. apply sorted_elem in Hy. rewrite Hf in Hy.
    apply elem_of_cons in Hy as [[= -> ->]|Hy].
    + destruct (key_le_total kx kx); done.
    + destruct Hasc as [Hhead _]. cbn in Hhead.
      by apply (proj1 (Forall_forall _ _) Hhead (ky, y)).
Qed.

(** ** What the evaluator leaves alone *)

Lemma same_env_tracing w w' : same_env w w' -> tracing w w'.
Proof. unfold same_env, tracing. by intros [-> ->]. Qed.

Lemma same_env_grows w w' : same_env w w' -> grows w w'.
Proof. intros Hs. by apply tracing_grows, same_env_tracing. Qed.

Section EvaluatorFacts.
Context `{sympy.Ops}.
Variable recursion_limit : nat.
Variable HAS_SYMPY : bool.

Lemma sort_key_same_env (x : expr) : keeps same_env (sort_key recursion_limit x).
Proof.
  unfold sort_key. apply keeps_bind; [apply _|apply size_hint_same_env|].
  intros h. destruct h, x; first [apply keeps_ret|apply keeps_raise]; apply _.
Qed.

Lemma keys_of_same_env (l : list expr) : keeps same_env (keys_of recursion_limit l).
Proof.
  induction l as [|x rest IH]; cbn [keys_of].
  - apply keeps_ret; apply _.
  - apply keeps_bind; [apply _|apply sort_key_same_env|]. intros k.
    apply keeps_bind; [apply _|apply IH|]. intros ks.
    apply keeps_ret; apply _.
Qed.

Lemma append_guard_tracing (e v : expr) : keeps tracing (append_guard e v).
Proof.
  apply keeps_modify. intros w. unfold tracing; cbn.
  split; [by apply prefix_app_r|done].
Qed.

Lemma record_divisible_solving (e lhs rhs : expr) :
  keeps solving (record_divisible recursion_limit e lhs rhs).
Proof.
  unfold record_divisible.
  destruct (atoms HMod e) as [|mod_expr [|]];
    try (apply keeps_ret; apply _).
  destruct (sympy.solve _ mod_expr) as [[|sol [|]]|exc];
    try (apply keeps_ret; apply _).
  - case_decide; [|apply keeps_ret; apply _].
    destruct mod_expr; try (apply keeps_raise; apply _).
    apply keeps_bind; [apply _|apply keeps_lift; apply _|]. intros fd.
    apply keeps_modify. intros w. unfold solving; cbn.
    repeat split; try done. apply union_subseteq_l.
  - destruct exc; first [apply keeps_ret|apply keeps_raise]; apply _.
Qed.

Lemma solve_for_solving (e x : expr) :
  keeps solving (solve_for recursion_limit e x).
Proof.
  assert (Hbody : forall lhs rhs,
    keeps solving
      match sympy.solve (sympy.sub lhs rhs) x with
      | Ok [sol] =>
          let* t := lift (truth sol) in
          if t && negb (has_slash (sympy.str sol))
          then
            let* new_var := find sol in
            modify (fun w =>
              set_env (set_replacements
                         (<[x := new_var]> (replacements (env w))) (env w)) w)
          else ret tt
      | Ok _ => ret tt
      | Raise NotImplementedError => record_divisible recursion_limit e lhs rhs
      | Raise exc => raise exc
      end).
  { intros lhs rhs.
    destruct (sympy.solve _ x) as [[|sol [|]]|exc];
      try (apply keeps_ret; apply _).
    - apply keeps_bind; [apply _|apply keeps_lift; apply _|]. intros t.
      destruct (_ && _); [|apply keeps_ret; apply _].
      apply keeps_bind; [apply _| |].
      + eapply keeps_weaken; [apply links_only_solving|apply find_links_only].
      + intros new_var. apply keeps_modify. intros w. unfold solving; cbn.
        repeat split; try done. rewrite dom_insert_L.
        apply union_subseteq_r.
    - destruct exc; try (apply keeps_raise; apply _).
      apply record_divisible_solving. }
  unfold solve_for.
  destruct e as [| | |[] lhs rhs];
    first [apply keeps_raise; apply _|apply Hbody].
Qed.

Lemma evaluate_eq_tracing (e : expr) :
  keeps tracing (evaluate_eq recursion_limit e).
Proof.
  unfold evaluate_eq. apply keeps_bind; [apply _| |].
  { eapply keeps_weaken; [apply same_env_tracing|apply size_hint_same_env]. }
  intros v. apply keeps_bind; [apply _|apply append_guard_tracing|].
  intros _. apply keeps_bind; [apply _|apply keeps_lift; apply _|].
  intros t. destruct (negb t); [apply keeps_ret; apply _|].
  destruct (_ =? _)%nat; [apply keeps_raise; apply _|].
  apply keeps_bind; [apply _| |intros; apply keeps_ret; apply _].
  case_bool_decide; [|apply keeps_ret; apply _].
  apply keeps_bind; [apply _| |].
  { eapply keeps_weaken; [apply same_env_tracing|apply keys_of_same_env]. }
  intros keyed. destruct (sorted_by_key keyed); [apply keeps_raise; apply _|].
  eapply keeps_weaken; [apply solving_tracing|apply solve_for_solving].
Qed.

Global Instance evaluating_preorder : PreOrder (evaluating recursion_limit).
Proof.
  unfold evaluating. split; [by intros w|].
  intros w1 w2 w3 (?&?&?&?) (?&?&?&?).
  split; [by etrans|]. split; [congruence|]. split; [by etrans|auto].
Qed.

Lemma tracing_evaluating w w' : tracing w w' -> evaluating recursion_limit w w'.
Proof.
  unfold tracing, evaluating, static_coherent.
  intros (?&?&?&?&->). done.
Qed.

Lemma evaluate_expr_evaluating (e : expr) :
  keeps (evaluating recursion_limit) (evaluate_expr recursion_limit e).
Proof.
  unfold evaluate_expr.
  destruct (_ =? _)%nat; [apply keeps_ret; apply _|].
  apply keeps_bind; [apply _| |].
  { eapply keeps_weaken; [|apply simplify_facts_only].
    unfold facts_only, evaluating, static_coherent.
    intros w w' (-> & -> & -> & ->). done. }
  intros e'. apply keeps_bind; [apply _| |].
  { intros w. unfold evaluating.
    rewrite (maybe_evaluate_static_env recursion_limit e' w).
    repeat (split; [done|]). intros Hco.
    by destruct (maybe_evaluate_static_outcome recursion_limit e' w Hco)
      as (_ & _ & Hco'). }
  intros [v|]; [apply keeps_ret; apply _|].
  destruct (is_Eq e').
  - eapply keeps_weaken; [|apply evaluate_eq_tracing].
    apply tracing_evaluating.
  - apply keeps_bind; [apply _| |].
    { eapply keeps_weaken; [|apply size_hint_same_env].
      intros w w' Hs. by apply tracing_evaluating, same_env_tracing. }
    intros v. apply keeps_bind; [apply _| |intros; apply keeps_ret; apply _].
    eapply keeps_weaken; [|apply append_guard_tracing].
    apply tracing_evaluating.
Qed.

Lemma evaluating_grows w w' : evaluating recursion_limit w w' -> grows w w'.
Proof. unfold evaluating, grows. intros (_ & _ & Hr & _). done. Qed.

Lemma create_symint_grows (name : string) (val : Z) :
  keeps grows (create_symint HAS_SYMPY name val).
Proof.
  unfold create_symint.
  destruct (negb HAS_SYMPY); [apply keeps_raise; apply _|].
  destruct (_ || _); [apply keeps_ret; apply _|].
  apply keeps_bind; [apply _| |intros; apply keeps_ret; apply _].
  apply keeps_modify. intros w. unfold grows. done.
Qed.

Lemma run_grows (o : operation) :
  keeps grows (run recursion_limit HAS_SYMPY o).
Proof.
  destruct o; cbn [run]; apply keeps_forget.
  - apply create_symint_grows.
  - eapply keeps_weaken; [apply evaluating_grows|].
    apply evaluate_expr_evaluating.
  - eapply keeps_weaken; [apply tracing_grows|apply evaluate_eq_tracing].
  - eapply keeps_weaken; [apply facts_only_grows|apply simplify_facts_only].
  - unfold guard_int. apply keeps_bind; [apply _| |].
    + eapply keeps_weaken; [apply evaluating_grows|].
      apply evaluate_expr_evaluating.
    + intros v. apply keeps_lift; apply _.
  - unfold __bool__. apply keeps_bind; [apply _| |].
    + eapply keeps_weaken; [apply evaluating_grows|].
      apply evaluate_expr_evaluating.
    + intros v. apply keeps_lift; apply _.
Qed.

(** C3, as the code has it: no operation removes a key of
    [replacements], over any sequence of operations from any world, so
    its count never decreases; [evaluate_eq] only adds to [divisible]
    and [create_symint] leaves it alone.  Nothing is said of [divisible]
    under [simplify] and the operations that call it. *)
Theorem replacements_only_grow :
  (forall (ops : list operation) (w : World),
     let w' := run_all recursion_limit HAS_SYMPY ops w in
     dom (replacements (env w)) ⊆ dom (replacements (env w')) /\
     (size (replacements (env w)) <= size (replacements (env w')))%nat)
  /\ (forall (e : expr) (w : World),
        divisible (env w)
          ⊆ divisible (env (evaluate_eq recursion_limit e w).2))
  /\ (forall (name : string) (val : Z) (w : World),
        divisible (env (create_symint HAS_SYMPY name val w).2)
          = divisible (env w)).
Proof.
  split; [|split].
  - intros ops w. cbn zeta.
    assert (Hg : grows w (run_all recursion_limit HAS_SYMPY ops w)).
    { revert w. induction ops as [|o rest IH]; intros w; cbn [run_all].
      - reflexivity.
      - etrans; [apply run_grows|apply IH]. }
    split; [exact Hg|].
    rewrite <- !size_dom. by apply subseteq_size.
  - intros e w.
    by destruct (evaluate_eq_tracing e w) as (_ & _ & _ & Hd & _).
  - intros name val w. unfold create_symint.
    destruct (negb HAS_SYMPY); [done|]. by destruct (_ || _).
Qed.

End EvaluatorFacts.

(** ** Static evaluation *)

Section StaticFacts.
Context `{sympy.Ops}.
Variable recursion_limit : nat.
Variable HAS_SYMPY : bool.

(** The memo table of [maybe_evaluate_static] stays coherent under every
    operation, so it is coherent in every world reached from
    [World_init]. *)
Lemma run_static_coherent (o : operation) (w : World) :
  static_coherent recursion_limit w ->
  static_coherent recursion_limit (run recursion_limit HAS_SYMPY o w).2.
Proof.
  assert (Hexpr : forall e w,
    static_coherent recursion_limit w ->
    static_coherent recursion_limit (evaluate_expr recursion_limit e w).2).
  { intros e w0 Hco.
    by destruct (evaluate_expr_evaluating recursion_limit e w0)
      as (_ & _ & _ & Hk); auto. }
  intros Hco. destruct o; cbn [run]; unfold forget.
  - unfold create_symint, Py.bind, Py.modify, Py.ret, Py.raise.
    destruct (negb HAS_SYMPY); [done|]. by destruct (_ || _).
  - specialize (Hexpr e w Hco).
    by destruct (evaluate_expr recursion_limit e w) as [[?|?] ?].
  - destruct (evaluate_eq_tracing recursion_limit e w) as (_ & _ & _ & _ & Hs).
    destruct (evaluate_eq recursion_limit e w) as [[?|?] w'];
      cbn in *; unfold static_coherent; by rewrite Hs.
  - destruct (simplify_facts_only recursion_limit e w) as (_ & _ & _ & Hs).
    destruct (simplify recursion_limit e w) as [[?|?] w'];
      cbn in *; unfold static_coherent; by rewrite Hs.
  - unfold guard_int, Py.bind, Py.lift. specialize (Hexpr (expr_of a) w Hco).
    destruct (evaluate_expr recursion_limit (expr_of a) w) as [[v|?] w'];
      cbn in *; [|done]. by destruct (int_of v).
  - unfold __bool__, Py.bind, Py.lift. specialize (Hexpr (expr_of a) w Hco).
    destruct (evaluate_expr recursion_limit (expr_of a) w) as [[v|?] w'];
      cbn in *; [|done]. by destruct (truth v).
Qed.

Lemma run_all_static_coherent (ops : list operation) :
  static_coherent recursion_limit
    (run_all recursion_limit HAS_SYMPY ops World_init).
Proof.
  assert (Hgen : forall w, static_coherent recursion_limit w ->
    static_coherent recursion_limit (run_all recursion_limit HAS_SYMPY ops w)).
  { induction ops as [|o rest IH]; intros w Hco; cbn [run_all]; [done|].
    by apply IH, run_static_coherent. }
  apply Hgen, World_init_static_coherent.
Qed.

(** C5: let [e] have free symbols and let [simplify] turn it into [e1].
    If [e1], with its free symbols replaced by the placeholders
    [shape_0 + 1], [shape_1 + 1], ... (one per symbol, each a positive
    integer symbol plus one) and expanded, has no free symbol left, then
    [evaluate_expr e] returns that expanded value, and the guard log is
    what it was.  The memo table is assumed coherent, as it is in every
    world reached from the initial one. *)
Theorem static_evaluation_logs_no_guard (e e1 v : expr) (w w1 : World) :
  free_symbols e ≠ [] ->
  static_coherent recursion_limit w ->
  simplify recursion_limit e w = (Ok e1, w1) ->
  static_outcome recursion_limit e1 = Ok (Some v) ->
  exists w2,
    evaluate_expr recursion_limit e w = (Ok v, w2) /\
    guards (env w2) = guards (env w) /\
    free_symbols v = [] /\
    exists new_expr,
      xreplace recursion_limit e1
        (list_to_map
           (imap (fun idx k => (k, placeholder idx)) (free_symbols e1)))
        = Ok new_expr /\
      v = sympy.expand new_expr.
Proof.
  intros Hfree Hco Hsimp Hstatic.
  destruct (simplify_facts_only recursion_limit e w) as (Hg & _ & _ & Hs).
  rewrite Hsimp in Hg, Hs. cbn in Hg, Hs.
  assert (Hco1 : static_coherent recursion_limit w1).
  { unfold static_coherent. by rewrite Hs. }
  destruct (maybe_evaluate_static_outcome recursion_limit e1 w1 Hco1)
    as (Hout & Henv & _).
  exists (maybe_evaluate_static recursion_limit e1 w1).2.
  split; [|split; [|split]].
  - unfold evaluate_expr.
    destruct (free_symbols e) as [|x l] eqn:Hfs; [done|]. cbn [length Nat.eqb].
    rewrite (bind_ok _ _ _ _ _ Hsimp).
    unfold Py.bind.
    destruct (maybe_evaluate_static recursion_limit e1 w1) as [r w2].
    cbn in Hout. rewrite Hout, Hstatic. done.
  - by rewrite Henv.
  - unfold static_outcome in Hstatic.
    destruct (xreplace _ e1 _) as [new_expr|]; cbn in Hstatic; [|done].
    destruct (length (free_symbols (sympy.expand new_expr))) eqn:Hlen;
      cbn in Hstatic; [|done].
    injection Hstatic as <-. by apply nil_length_inv.
  - unfold static_outcome in Hstatic.
    destruct (xreplace _ e1 _) as [new_expr|]; cbn in Hstatic; [|done].
    exists new_expr. split; [done|].
    destruct (_ =? _)%nat; [|done]. by injection Hstatic as <-.
Qed.

End StaticFacts.

(** [s0 > 1] on a symbol of size 8: the placeholder [shape_0 + 1] exceeds
    1 whatever [shape_0] is, so the answer is [True] and nothing is
    logged. *)
Lemma static_evaluation_logs_no_guard_witness :
  let w := (create_symint true "s0" 8 World_init).2 in
  let e := App HGt Fragment.s0 (Integer 1) in
  free_symbols e ≠ [] /\
  (evaluate_expr (H := Fragment.ops) Fragment.recursion_limit e w).1
    = Ok (BooleanAtom true) /\
  guards (env (evaluate_expr (H := Fragment.ops)
                 Fragment.recursion_limit e w).2) = [].
Proof.
  intros w e.
  assert (Hfree : free_symbols e ≠ []) by (vm_compute; discriminate).
  assert (Hco : static_coherent (H := Fragment.ops) Fragment.recursion_limit w).
  { intros k r. cbn. by rewrite lookup_empty. }
  destruct (static_evaluation_logs_no_guard (H := Fragment.ops)
              Fragment.recursion_limit e e (BooleanAtom true) w
              (simplify (H := Fragment.ops) Fragment.recursion_limit e w).2
              Hfree Hco)
    as (w2 & Heval & Hguards & _).
  - vm_compute. reflexivity.
  - vm_compute. reflexivity.
  - rewrite Heval. cbn [fst snd]. rewrite Hguards. split; [done|]. split; done.
Defined.

(** ** Equalities *)

Section EqualityFacts.
Context `{sympy.Ops}.
Variable recursion_limit : nat.

(** [size_hint], one case per line of the source. *)
Lemma size_hint_unfold (e : expr) (w : World) :
  size_hint recursion_limit e w =
    match size_hint_cache w !! e with
    | Some v => (Ok v, w)
    | None =>
        match xreplace recursion_limit (sympy.expand e)
                (Integer <$> var_to_val (env w)) with
        | Ok r =>
            if is_Expr r && negb (length (free_symbols r) =? 0)%nat
            then (Raise (AssertionError no_value), w)
            else (Ok r, set_size_hint_cache (<[e := r]> (size_hint_cache w)) w)
        | Raise exc => (Raise exc, w)
        end
    end.
Proof.
  unfold size_hint, size_hint_body, Py.bind, Py.get, Py.lift, Py.modify,
    Py.ret, Py.raise.
  destruct (size_hint_cache w !! e); [done|].
  destruct (xreplace _ _ _) as [r|exc]; [|done].
  by destruct (_ && _).
Qed.

(** What [size_hint] answers depends on the bindings and on its own
    table only. *)
Lemma size_hint_value_ext (y : expr) (w w' : World) :
  var_to_val (env w') = var_to_val (env w) ->
  size_hint_cache w' = size_hint_cache w ->
  (size_hint recursion_limit y w').1 = (size_hint recursion_limit y w).1.
Proof.
  intros Hv Hc. rewrite !size_hint_unfold, Hv, Hc.
  destruct (size_hint_cache w !! y); [done|].
  destruct (xreplace _ _ _) as [r|exc]; [|done].
  by destruct (_ && _).
Qed.

(** Asking for one hint does not change the answer for another, nor for
    the same one. *)
Lemma size_hint_after (k y : expr) (w : World) :
  (size_hint recursion_limit y (size_hint recursion_limit k w).2).1
  = (size_hint recursion_limit y w).1.
Proof.
  rewrite (size_hint_unfold k w).
  destruct (size_hint_cache w !! k) as [v|] eqn:Hk; [done|].
  destruct (xreplace _ (sympy.expand k) _) as [r|exc] eqn:Hx; [|done].
  destruct (is_Expr r && _) eqn:Hr; [done|]. cbn [snd].
  destruct (decide (y = k)) as [->|Hne].
  - rewrite !size_hint_unfold. cbn. rewrite lookup_insert_eq, Hk, Hx, Hr. done.
  - rewrite !size_hint_unfold. cbn. rewrite lookup_insert_ne by done.
    destruct (size_hint_cache w !! y); [done|].
    destruct (xreplace _ (sympy.expand y) _) as [r'|exc]; [|done].
    by destruct (is_Expr r' && _).
Qed.

(** Every computed key is [(-hint, name)] for a symbol of that name whose
    hint, as [size_hint] answers it in the world where the keys are
    computed, is the integer [hint]. *)
Lemma keys_of_spec (l : list expr) (w w' : World)
  (keyed : list ((Z * string) * expr)) :
  keys_of recursion_limit l w = (Ok keyed, w') ->
  keyed.*2 = l /\
  forall ky y, (ky, y) ∈ keyed ->
    exists hy ny,
      y = Symbol ny /\ ky = (- hy, ny) /\
      (size_hint recursion_limit y w).1 = Ok (Integer hy).
Proof.
  revert w w' keyed. induction l as [|x rest IH]; intros w w' keyed;
    cbn [keys_of].
  - intros [= <- <-]. split; [done|]. intros ky y Hy.
    by apply elem_of_nil in Hy.
  - unfold Py.bind at 1. unfold sort_key at 1. unfold Py.bind at 1.
    destruct (size_hint recursion_limit x w) as [[h|exc] w1] eqn:Hh; [|done].
    destruct h as [hx| | |]; try done.
    destruct x as [|nx| |]; try done.
    cbn [Py.ret]. unfold Py.bind at 1.
    destruct (keys_of recursion_limit rest w1) as [[ks|exc] w2] eqn:Hks;
      [|done].
    unfold Py.ret. intros [= <- <-]. destruct (IH _ _ _ Hks) as [Hsnd Hkeys].
    split; [cbn; by rewrite Hsnd|].
    intros ky y Hy. apply elem_of_cons in Hy as [[= -> ->]|Hy].
    + exists hx, nx. by rewrite Hh.
    + destruct (Hkeys _ _ Hy) as (hy & ny & -> & -> & Hhint).
      exists hy, ny. repeat split.
      pose proof (size_hint_after (Symbol nx) (Symbol ny) w) as Hafter.
      rewrite Hh in Hafter. cbn [snd] in Hafter. congruence.
Qed.

(** The first time it is asked, [size_hint] substitutes the bindings of
    [var_to_val] into the expanded expression. *)
Lemma size_hint_fresh (e v : expr) (w w1 : World) :
  size_hint recursion_limit e w = (Ok v, w1) ->
  size_hint_cache w !! e = None ->
  xreplace recursion_limit (sympy.expand e) (Integer <$> var_to_val (env w))
    = Ok v.
Proof.
  unfold size_hint, Py.bind, Py.get. intros Hs Hnone. rewrite Hnone in Hs.
  unfold size_hint_body, Py.bind, Py.get, Py.lift in Hs.
  destruct (xreplace _ _ _) as [r|exc]; [|done].
  destruct (_ && _); [done|]. cbn in Hs. by injection Hs as -> _.
Qed.


End EqualityFacts.



(** What the claim C3 says of [divisible] fails.  After the first
    session [divisible] holds [FloorDiv(s0, 3)] and [replacements] maps
    [s0] to 6; simplifying [FloorDiv(s1, 2)] then refreshes [divisible],
    where [FloorDiv(6, 3)] evaluates to 2 and is dropped: the set went
    from one member to none. *)
Lemma divisible_shrinks :
  let w := Session.run_all Session.first_session World_init in
  let w' := Session.run_all [op_simplify Session.halved] w in
  elements (divisible (env w)) = [App HFloorDiv Fragment.s0 (Integer 3)] /\
  replacements (env w) !! Fragment.s0 = Some (Integer 6) /\
  elements (divisible (env w')) = [] /\
  (size (divisible (env w')) < size (divisible (env w)))%nat /\
  ~ (divisible (env w) ⊆ divisible (env w')).
Proof.
  intros w w'.
  assert (Hw : elements (divisible (env w))
               = [App HFloorDiv Fragment.s0 (Integer 3)])
    by (vm_compute; reflexivity).
  assert (Hw' : elements (divisible (env w')) = [])
    by (vm_compute; reflexivity).
  split; [exact Hw|]. split; [vm_compute; reflexivity|].
  split; [exact Hw'|]. split; [vm_compute; lia|].
  intros Hsub.
  assert (Hin : App HFloorDiv Fragment.s0 (Integer 3) ∈ divisible (env w)).
  { apply elem_of_elements. rewrite Hw. apply list_elem_of_here. }
  apply Hsub, elem_of_elements in Hin. rewrite Hw' in Hin.
  by apply elem_of_nil in Hin.
Qed.

(** ** Symbols for the arguments *)

Lemma list_ascii_of_append (s t : string) :
  String.list_ascii_of_string (s +:+ t)
  = String.list_ascii_of_string s ++ String.list_ascii_of_string t.
Proof. induction s as [|c s IH]; simpl; [done|]. by f_equal. Qed.

Lemma string_app_inv_tail (s1 s2 t : string) :
  s1 +:+ t = s2 +:+ t -> s1 = s2.
Proof.
  intros Heq. apply (f_equal String.list_ascii_of_string) in Heq.
  rewrite !list_ascii_of_append in Heq. apply app_inv_tail in Heq.
  apply (f_equal String.string_of_list_ascii) in Heq.
  by rewrite !String.string_of_list_ascii_of_string in Heq.
Qed.

(** Tensor leaves with different numbers get different names for the
    same dimension. *)
Lemma symbol_name_inj (a b idx : nat) :
  symbol_name a idx = symbol_name b idx -> a = b.
Proof.
  unfold symbol_name. intros Heq. apply String.app_inj in Heq.
  apply string_app_inv_tail in Heq. by apply (inj pretty) in Heq.
Qed.

Lemma create_symint_value (name : string) (val : Z) (w : World) :
  (create_symint true name val w).1
  = Ok (if (val =? 0) || (val =? 1) then VInt val
        else VSymInt (mkPySymInt (Symbol name) self_env None)).
Proof. unfold create_symint. cbn. by destruct (_ || _). Qed.

Lemma create_dims_value (arg_cnt idx : nat) (sizes : list Z) (w : World) :
  (create_dims true arg_cnt idx sizes w).1
  = Ok (imap (fun k => symint_for arg_cnt (idx + k)) sizes).
Proof.
  revert idx w. induction sizes as [|sz rest IH]; intros idx w; [done|].
  cbn [create_dims]. unfold Py.bind at 1.
  pose proof (create_symint_value (symbol_name arg_cnt idx) sz w) as Hv.
  destruct (create_symint true _ sz w) as [[v|exc] w1]; cbn in Hv; [|done].
  injection Hv as ->. unfold Py.bind at 1.
  specialize (IH (S idx) w1).
  destruct (create_dims true arg_cnt (S idx) rest w1) as [[vs|exc] w2];
    cbn in IH; [|done].
  injection IH as ->. rewrite imap_cons. unfold Py.ret. cbn [fst].
  f_equal. f_equal.
  - unfold symint_for. by rewrite Nat.add_0_r.
  - apply imap_ext. intros k x _. unfold compose. f_equal. lia.
Qed.

Lemma tensors_before_cons (i : nat) (x : leaf) (rest : list leaf) :
  tensors_before (S i) (x :: rest)
  = ((if is_tensor x then 1 else 0) + tensors_before i rest)%nat.
Proof.
  unfold tensors_before. rewrite firstn_cons.
  destruct x as [t|v].
  - by rewrite filter_cons_True by done.
  - by rewrite filter_cons_False by done.
Qed.

(** What [create_shapes] returns at each position. *)
Lemma create_shapes_value (arg_cnt : nat) (leaves : list leaf) (w : World) :
  exists out,
    (create_shapes true arg_cnt leaves w).1 = Ok out /\
    length out = length leaves /\
    forall i x, leaves !! i = Some x ->
      out !! i = Some
        match x with
        | LTensor t =>
            OutShape (imap (symint_for (arg_cnt + tensors_before i leaves))
                        (shape t))
        | LOther v => Passed v
        end.
Proof.
  revert arg_cnt w. induction leaves as [|x rest IH]; intros arg_cnt w.
  - exists []. split; [done|]. split; [done|]. intros i x. by destruct i.
  - destruct x as [t|v]; cbn [create_shapes].
    + unfold Py.bind at 1.
      pose proof (create_dims_value arg_cnt 0 (shape t) w) as Hd.
      destruct (create_dims true arg_cnt 0 (shape t) w) as [[dims|exc] w1];
        cbn in Hd; [|done].
      injection Hd as ->.
      destruct (IH (S arg_cnt) w1) as (out & Hout & Hlen & Hat).
      unfold Py.bind at 1.
      destruct (create_shapes true (S arg_cnt) rest w1) as [[out'|exc] w2];
        cbn in Hout; [|done].
      injection Hout as ->. eexists. split; [done|].
      split; [cbn; by rewrite Hlen|].
      intros [|i] y Hy.
      * injection Hy as <-. unfold tensors_before. rewrite take_0.
        cbn [filter list_filter length]. by rewrite Nat.add_0_r.
      * etrans; [apply (Hat i y Hy)|]. destruct y as [t'|]; [|done].
        rewrite tensors_before_cons. cbn [is_tensor].
        by replace (arg_cnt + (1 + tensors_before i rest))%nat
          with (S arg_cnt + tensors_before i rest)%nat by lia.
    + unfold Py.bind at 1.
      destruct (IH arg_cnt w) as (out & Hout & Hlen & Hat).
      destruct (create_shapes true arg_cnt rest w) as [[out'|exc] w2];
        cbn in Hout; [|done].
      injection Hout as ->. eexists. split; [done|].
      split; [cbn; by rewrite Hlen|].
      intros [|i] y Hy.
      * by injection Hy as <-.
      * etrans; [apply (Hat i y Hy)|]. destruct y as [t'|]; [|done].
        by rewrite tensors_before_cons.
Qed.

Lemma tensors_before_lt (i j : nat) (leaves : list leaf) (t : Tensor) :
  (i < j)%nat -> leaves !! i = Some (LTensor t) ->
  (tensors_before i leaves < tensors_before j leaves)%nat.
Proof.
  intros Hij Hi. unfold tensors_before.
  assert (Hsplit : take j leaves
                   = take i leaves ++ LTensor t :: take (j - S i) (drop (S i) leaves)).
  { rewrite <- (take_drop_middle leaves i (LTensor t) Hi) at 1.
    rewrite take_app_ge by (rewrite length_take; lia).
    f_equal. rewrite length_take.
    apply lookup_lt_Some in Hi.
    replace (j - i `min` length leaves)%nat with (S (j - S i)) by lia.
    done. }
  rewrite Hsplit, filter_app, length_app, filter_cons_True by done.
  cbn. lia.
Qed.

(** C2, as the code has it: [create_shapes_for_args] numbers the tensor
    leaves of the flattened arguments in order and gives the leaf numbered
    [k] the scalars of its own: dimension [idx] of size other than 0 and 1
    is the symbol named [s_k[idx]], sizes 0 and 1 stay literals; other
    leaves pass through.  Two positions holding the same tensor have
    different numbers, so they get different symbols for every dimension
    of size other than 0 and 1. *)
Theorem create_shapes_for_args_numbers_leaves (args : pytree) (w : World) :
  exists out,
    (create_shapes_for_args true args w).1 = Ok out /\
    length out = length (tree_flatten args) /\
    (forall i t, tree_flatten args !! i = Some (LTensor t) ->
       out !! i = Some
         (OutShape (imap (symint_for (tensors_before i (tree_flatten args)))
                      (shape t)))) /\
    (forall i v, tree_flatten args !! i = Some (LOther v) ->
       out !! i = Some (Passed v)) /\
    (forall i j t idx sz,
       i ≠ j ->
       tree_flatten args !! i = Some (LTensor t) ->
       tree_flatten args !! j = Some (LTensor t) ->
       shape t !! idx = Some sz -> sz ≠ 0 -> sz ≠ 1 ->
       symint_for (tensors_before i (tree_flatten args)) idx sz
       ≠ symint_for (tensors_before j (tree_flatten args)) idx sz).
Proof.
  unfold create_shapes_for_args.
  destruct (create_shapes_value 0 (tree_flatten args) w)
    as (out & Hout & Hlen & Hat).
  exists out. split; [done|]. split; [done|]. split; [|split].
  - intros i t Hi. by rewrite (Hat _ _ Hi).
  - intros i v Hi. by rewrite (Hat _ _ Hi).
  - intros i j t idx sz Hij Hi Hj _ Hz Ho. unfold symint_for.
    apply Z.eqb_neq in Hz, Ho. rewrite Hz, Ho. cbn [orb].
    intros Heq.
    assert (Hname : symbol_name (tensors_before i (tree_flatten args)) idx
                    = symbol_name (tensors_before j (tree_flatten args)) idx)
      by congruence.
    apply symbol_name_inj in Hname.
    destruct (decide (i < j)%nat).
    + pose proof (tensors_before_lt i j _ t ltac:(done) Hi). lia.
    + pose proof (tensors_before_lt j i _ t ltac:(lia) Hj). lia.
Qed.

(** What the claim C2 says fails: the tensor [shared_tensor] is met at
    positions 0 and 2 of the flattened arguments, and its first dimension
    gets the symbol [s_0[0]] at one and [s_1[0]] at the other. *)
Lemma shared_tensor_gets_two_symbols :
  let leaves := tree_flatten shared_twice in
  let out := (create_shapes_for_args true shared_twice World_init).1 in
  leaves !! 0%nat = Some (LTensor shared_tensor) /\
  leaves !! 2%nat = Some (LTensor shared_tensor) /\
  out = Ok [ OutShape [VSymInt (mkPySymInt (Symbol "s_0[0]") 0 None); VInt 1];
             Passed (VInt 5);
             OutShape [VSymInt (mkPySymInt (Symbol "s_1[0]") 0 None); VInt 1] ]
  /\ ~ (forall o, out = Ok o -> o !! 0%nat = o !! 2%nat).
Proof.
  intros leaves out.
  assert (Hout : out =
    Ok [ OutShape [VSymInt (mkPySymInt (Symbol "s_0[0]") 0 None); VInt 1];
         Passed (VInt 5);
         OutShape [VSymInt (mkPySymInt (Symbol "s_1[0]") 0 None); VInt 1] ])
    by (vm_compute; reflexivity).
  split; [done|]. split; [done|]. split; [exact Hout|].
  intros Hsame. specialize (Hsame _ Hout). discriminate Hsame.
Qed.

(** The two positions of [shared_tensor] in [shared_twice] are numbered 0
    and 1, and the symbols of its first dimension differ. *)
Lemma create_shapes_for_args_numbers_leaves_witness :
  exists out,
    (create_shapes_for_args true shared_twice World_init).1 = Ok out /\
    out !! 0%nat = Some (OutShape (imap (symint_for 0) [8; 1])) /\
    out !! 2%nat = Some (OutShape (imap (symint_for 1) [8; 1])) /\
    symint_for 0 0 8 ≠ symint_for 1 0 8.
Proof.
  destruct (create_shapes_for_args_numbers_leaves shared_twice World_init)
    as (out & Hout & _ & Htensor & _ & Hdiff).
  exists out. split; [exact Hout|]. split; [|split].
  - exact (Htensor 0%nat shared_tensor eq_refl).
  - exact (Htensor 2%nat shared_tensor eq_refl).
  - exact (Hdiff 0%nat 2%nat shared_tensor 0%nat 8 ltac:(lia) eq_refl eq_refl
             eq_refl ltac:(lia) ltac:(lia)).
Defined.

(** * Further properties of the module *)

(** ** [create_contiguous] *)

Section ContiguousFacts.
Context {A : Type}.
Variable one : A.
Variable mul : A -> A -> A.

Lemma suffix_products_head (sizes : list A) :
  list.head (suffix_products one mul sizes) = Some (foldr mul one sizes).
Proof. by destruct sizes. Qed.

Lemma suffix_products_lookup (sizes : list A) (i : nat) :
  (i <= length sizes)%nat ->
  suffix_products one mul sizes !! i = Some (foldr mul one (drop i sizes)).
Proof.
  revert i. induction sizes as [|x rest IH]; intros [|i] Hi; cbn in *;
    try done; try lia.
  apply IH. lia.
Qed.

Lemma suffix_products_length (sizes : list A) :
  length (suffix_products one mul sizes) = S (length sizes).
Proof. induction sizes as [|x rest IH]; cbn; [done|]. by rewrite IH. Qed.

Lemma suffix_products_last (sizes : list A) :
  last (suffix_products one mul sizes) = Some one.
Proof.
  induction sizes as [|x rest IH]; [done|].
  cbn [suffix_products]. destruct (suffix_products one mul rest) eqn:E;
    [done|]. rewrite last_cons. by rewrite IH.
Qed.

(** The loop builds the suffix products back to front. *)
Lemma push_strides_reverse (sizes : list A) :
  foldl (push_stride mul) [one] (reverse sizes)
  = reverse (suffix_products one mul sizes).
Proof.
  induction sizes as [|x rest IH]; [done|].
  rewrite reverse_cons, foldl_app, IH. cbn [foldl suffix_products].
  unfold push_stride. rewrite last_reverse, suffix_products_head.
  by rewrite reverse_cons.
Qed.

Lemma create_contiguous_suffix_products (shape : list A) :
  create_contiguous one mul shape
  = suffix_products one mul (all_but_last shape).
Proof.
  unfold create_contiguous. by rewrite push_strides_reverse, reverse_involutive.
Qed.

(** X1: [create_contiguous(shape)] has one stride per dimension, and the
    single stride [1] for an empty shape; its last stride is [1]; the
    stride at position [i] is the product [shape[i] * (... * (shape[n-2]
    * 1))] of the sizes from position [i] up to the last but one.  The
    last size is never read: two shapes that differ only there get the
    same strides. *)
Theorem create_contiguous_strides (shape : list A) :
  length (create_contiguous one mul shape) = Nat.max 1 (length shape) /\
  last (create_contiguous one mul shape) = Some one /\
  (forall i, (i < Nat.max 1 (length shape))%nat ->
     create_contiguous one mul shape !! i
     = Some (foldr mul one (drop i (all_but_last shape)))) /\
  (forall init a b,
     create_contiguous one mul (init ++ [a])
     = create_contiguous one mul (init ++ [b])).
Proof.
  rewrite create_contiguous_suffix_products.
  assert (Hlen : length (all_but_last shape) = (length shape - 1)%nat).
  { unfold all_but_last. rewrite length_take. lia. }
  split; [|split; [|split]].
  - rewrite suffix_products_length, Hlen. lia.
  - apply suffix_products_last.
  - intros i Hi. apply suffix_products_lookup. rewrite Hlen. lia.
  - intros init a b. rewrite !create_contiguous_suffix_products.
    unfold all_but_last. rewrite !length_app. cbn [length].
    replace (length init + 1 - 1)%nat with (length init) by lia.
    by rewrite !take_app_length.
Qed.

End ContiguousFacts.

(** ** [handle_symbolic_op] *)

(** X2: [handle_symbolic_op] fails its assertion on an operator that
    [is_symbolic_op] does not list, leaving the tensor alone.  For
    [sym_numel] on a tensor without [_cached_numel] it returns the product
    of the sizes and stores it; from then on it returns the stored number,
    whatever the sizes of the tensor have become. *)
Theorem handle_symbolic_op_numel_cached :
  (forall func t,
     is_symbolic_op func = false ->
     handle_symbolic_op func t = (Raise (AssertionError ""), t))
  /\ (forall sizes,
        handle_symbolic_op sym_numel (mkTensorArg sizes None)
        = (Ok (AInt (foldr Z.mul 1 sizes)),
           mkTensorArg sizes (Some (foldr Z.mul 1 sizes))))
  /\ (forall sizes n,
        handle_symbolic_op sym_numel (mkTensorArg sizes (Some n))
        = (Ok (AInt n), mkTensorArg sizes (Some n))).
Proof.
  split; [|split].
  - intros func t Hno. unfold handle_symbolic_op. by rewrite Hno.
  - intros sizes.
    assert (Hprod : forall acc, foldl (fun res s => res * s) acc sizes
                                = acc * foldr Z.mul 1 sizes).
    { induction sizes as [|x rest IH]; intros acc; cbn; [lia|].
      rewrite IH. lia. }
    unfold handle_symbolic_op. change (is_symbolic_op sym_numel) with true.
    cbn [negb]. unfold Py.bind, Py.get, Py.put, Py.ret.
    cbn [_cached_numel arg_shape]. by rewrite Hprod, Z.mul_1_l.
  - done.
Qed.

(** ** Wrapped literals *)

Section WrapFacts.
Context `{sympy.Ops}.
Variable recursion_limit : nat.

(** X3: a literal wrapped by [wrap] is read back by [guard_int], and its
    truth value by [bool], without touching the world: no guard is
    logged for it. *)
Theorem guard_int_of_wrap (self : PySymInt) (num : Z) (w : World) :
  guard_int recursion_limit (wrap self num) w = (Ok num, w) /\
  __bool__ recursion_limit (wrap self num) w = (Ok (negb (num =? 0)), w) /\
  shape_env (wrap self num) = shape_env self.
Proof. done. Qed.

End WrapFacts.

(** ** [find]: the links of [replacements] *)

Lemma resolves_terminal (repl : gmap expr expr) (a r : expr) :
  resolves repl a r -> repl !! r = None.
Proof. induction 1; done. Qed.

Lemma resolves_det (repl : gmap expr expr) (a r r' : expr) :
  resolves repl a r -> resolves repl a r' -> r = r'.
Proof.
  intros Hr. revert r'. induction Hr as [a Ha|a b r Hab Hb IH]; intros r' Hr'.
  - inversion Hr'; congruence.
  - inversion Hr' as [? Ha|? b' ? Hab' Hb']; subst; [congruence|].
    apply IH. congruence.
Qed.

Lemma find_root_resolves (fuel : nat) (repl : gmap expr expr) (a r : expr) :
  find_root fuel repl a = Ok r -> resolves repl a r.
Proof.
  revert a. induction fuel as [|fuel IH]; intros a; cbn.
  - destruct (repl !! a) eqn:Ha; [done|]. intros [= <-]. by constructor.
  - destruct (repl !! a) as [b|] eqn:Ha.
    + intros Hb. eapply resolves_step; [done|]. by apply IH.
    + intros [= <-]. by constructor.
Qed.

(** Pointing a key at the end of its own chain changes the end of no
    chain. *)
Lemma resolves_insert (repl : gmap expr expr) (c root b r : expr) :
  is_Some (repl !! c) -> resolves repl c root ->
  resolves repl b r -> resolves (<[c := root]> repl) b r.
Proof.
  intros [c' Hc] Hroot Hb.
  pose proof (resolves_terminal _ _ _ Hroot) as Hterm.
  assert (Hne : c ≠ root) by congruence.
  induction Hb as [a Ha|a b r Hab Hb IH].
  - constructor. rewrite lookup_insert_ne; [done|congruence].
  - destruct (decide (c = a)) as [->|Hca].
    + assert (r = root) as ->.
      { eapply resolves_det; [|exact Hroot].
        by eapply resolves_step. }
      eapply resolves_step; [by rewrite lookup_insert_eq|].
      constructor. by rewrite lookup_insert_ne.
    + eapply resolves_step; [|exact IH]. by rewrite lookup_insert_ne.
Qed.

Lemma compress_resolves (fuel : nat) (root : expr)
  (repl repl' : gmap expr expr) (a : expr) :
  compress fuel root repl a = Ok repl' ->
  resolves repl a root ->
  forall b r, resolves repl b r -> resolves repl' b r.
Proof.
  revert repl a. induction fuel as [|fuel IH]; intros repl a; cbn.
  - destruct (repl !! a); [done|]. by intros [= <-].
  - destruct (repl !! a) as [next|] eqn:Ha; [|by intros [= <-]].
    intros Hc Hroot b r Hb.
    assert (Hnext : resolves repl next root).
    { inversion Hroot; subst; congruence. }
    eapply (IH _ _ Hc).
    + apply resolves_insert; [by eexists|done|done].
    + by apply resolves_insert; [by eexists|done|].
Qed.

Lemma compress_keeps_link (fuel : nat) (root : expr)
  (repl repl' : gmap expr expr) (a x : expr) :
  compress fuel root repl a = Ok repl' ->
  repl !! x = Some root -> repl' !! x = Some root.
Proof.
  revert repl a. induction fuel as [|fuel IH]; intros repl a; cbn.
  - destruct (repl !! a); [done|]. by intros [= <-].
  - destruct (repl !! a) as [next|] eqn:Ha; [|by intros [= <-]].
    intros Hc Hx. apply (IH _ _ Hc).
    destruct (decide (a = x)) as [->|Hne].
    + by rewrite lookup_insert_eq.
    + by rewrite lookup_insert_ne.
Qed.

Lemma compress_links_start (fuel : nat) (root : expr)
  (repl repl' : gmap expr expr) (a : expr) :
  compress fuel root repl a = Ok repl' ->
  is_Some (repl !! a) -> repl' !! a = Some root.
Proof.
  destruct fuel as [|fuel]; cbn.
  - by destruct (repl !! a).
  - destruct (repl !! a) as [next|] eqn:Ha; [|by intros _ [? ?]].
    intros Hc _. apply (compress_keeps_link _ _ _ _ _ _ Hc).
    by rewrite lookup_insert_eq.
Qed.

Lemma find_unfold (a : expr) (w : World) :
  find a w =
    match find_root (size (replacements (env w))) (replacements (env w)) a with
    | Ok root =>
        match compress (size (replacements (env w))) root
                (replacements (env w)) a with
        | Ok repl' => (Ok root, set_env (set_replacements repl' (env w)) w)
        | Raise e => (Raise e, w)
        end
    | Raise e => (Raise e, w)
    end.
Proof.
  unfold find, Py.bind, Py.get, Py.lift, Py.modify, Py.ret.
  destruct (find_root _ _ a) as [root|e]; [|done].
  by destruct (compress _ root _ a).
Qed.

(** X4: when [find(a)] returns, what it returns is the end [root] of the
    chain of [a], and [root] is no key of [replacements]; if [a] was a
    key it now maps straight to [root]; every chain ends where it ended
    before, so no lookup changes its answer; the keys are the same, and
    nothing else in the environment moved. *)
Theorem find_compresses_paths (a root : expr) (w w' : World) :
  find a w = (Ok root, w') ->
  resolves (replacements (env w)) a root /\
  replacements (env w') !! root = None /\
  (is_Some (replacements (env w) !! a) ->
   replacements (env w') !! a = Some root) /\
  (forall b r, resolves (replacements (env w)) b r ->
               resolves (replacements (env w')) b r) /\
  dom (replacements (env w')) = dom (replacements (env w)) /\
  guards (env w') = guards (env w) /\
  var_to_val (env w') = var_to_val (env w) /\
  divisible (env w') = divisible (env w).
Proof.
  rewrite find_unfold.
  destruct (find_root _ _ a) as [root'|e] eqn:Hroot; [|done].
  destruct (compress _ root' _ a) as [repl'|e] eqn:Hc; [|done].
  intros [= -> <-]. cbn.
  apply find_root_resolves in Hroot.
  pose proof (compress_dom _ _ _ _ _ Hc) as Hdom.
  split; [done|]. split; [|split; [|split; [|split]]]; try done.
  - apply not_elem_of_dom. rewrite Hdom. apply not_elem_of_dom.
    by eapply resolves_terminal.
  - by eapply compress_links_start.
  - by eapply compress_resolves.
Qed.

(** X5: asking again gives the same answer and changes nothing: after
    [find(a)] returned [root], a second [find(a)] returns [root] and
    leaves the world as the first one left it. *)
Theorem find_twice (a root : expr) (w w' : World) :
  find a w = (Ok root, w') ->
  find a w' = (Ok root, w').
Proof.
  intros Hfind.
  destruct (find_compresses_paths _ _ _ _ Hfind)
    as (Hres & Hterm & Hlink & _ & Hdom & _).
  rewrite find_unfold.
  destruct w' as [[g v repl' d] c1 c2 c3 c4]. cbn in *.
  destruct (replacements (env w) !! a) as [b|] eqn:Ha.
  - specialize (Hlink ltac:(by eexists)).
    assert (Hsize : (0 < size repl')%nat).
    { destruct (size repl') eqn:Hs; [|lia].
      apply map_size_empty_inv in Hs. rewrite Hs in Hlink.
      by rewrite lookup_empty in Hlink. }
    destruct (size repl') as [|n]; [lia|]. cbn.
    rewrite Hlink. destruct n; cbn; rewrite Hterm; cbn;
      rewrite insert_id by done; by rewrite ?Hterm.
  - assert (root = a) as ->.
    { inversion Hres; subst; congruence. }
    destruct (size repl'); cbn; by rewrite Hterm.
Qed.

(** X6: after [replacements[x] = root], with [root] no key and other than
    [x], [find(x)] returns [root] and changes nothing. *)
Theorem find_after_link (x root : expr) (w : World) :
  replacements (env w) !! root = None ->
  x ≠ root ->
  find x (linked x root w) = (Ok root, linked x root w).
Proof.
  intros Hroot Hne. rewrite find_unfold. unfold linked. cbn.
  assert (Hterm : <[x := root]> (replacements (env w)) !! root = None)
    by (by rewrite lookup_insert_ne).
  destruct (size (<[x := root]> (replacements (env w)))) as [|n] eqn:Hs.
  { apply map_size_empty_inv in Hs.
    apply (f_equal (fun m => m !! x)) in Hs.
    by rewrite lookup_insert_eq, lookup_empty in Hs. }
  cbn. rewrite lookup_insert_eq.
  destruct n; cbn; rewrite Hterm; cbn; rewrite insert_insert_eq;
    by rewrite ?Hterm.
Qed.

Lemma find_compresses_paths_witness :
  exists w',
    find Fragment.s0 Session.chained = (Ok (Integer 6), w') /\
    replacements (env w') !! Fragment.s0 = Some (Integer 6) /\
    replacements (env w') !! Integer 6 = None.
Proof.
  set (out := find Fragment.s0 Session.chained).
  assert (Hfind : out = (Ok (Integer 6), out.2)) by (vm_compute; reflexivity).
  destruct (find_compresses_paths _ _ _ _ Hfind) as (_ & Hterm & Hlink & _).
  exists out.2. split; [exact Hfind|]. split; [|exact Hterm].
  apply Hlink. vm_compute. by eexists.
Defined.

Lemma find_twice_witness :
  let w' := (find Fragment.s0 Session.chained).2 in
  find Fragment.s0 Session.chained = (Ok (Integer 6), w') /\
  find Fragment.s0 w' = (Ok (Integer 6), w').
Proof.
  intros w'.
  assert (Hfind : find Fragment.s0 Session.chained = (Ok (Integer 6), w'))
    by (vm_compute; reflexivity).
  split; [exact Hfind|]. exact (find_twice _ _ _ _ Hfind).
Defined.

Lemma find_after_link_witness :
  replacements (env World_init) !! Fragment.s1 = None /\
  Fragment.s0 ≠ Fragment.s1 /\
  find Fragment.s0 (linked Fragment.s0 Fragment.s1 World_init)
  = (Ok Fragment.s1, linked Fragment.s0 Fragment.s1 World_init).
Proof.
  assert (Hnone : replacements (env World_init) !! Fragment.s1 = None)
    by apply lookup_empty.
  assert (Hne : Fragment.s0 ≠ Fragment.s1) by discriminate.
  split; [exact Hnone|]. split; [exact Hne|].
  exact (find_after_link _ _ _ Hnone Hne).
Defined.

(** ** Entering and leaving modes *)

Section NestingFacts.
Context {U : Type}.

Lemma exit_all_app (l1 l2 : list mode) (s : DispatchStore U) :
  exit_all (l1 ++ l2) s =
    match exit_all l1 s with
    | (Ok _, s') => exit_all l2 s'
    | (Raise e, s') => (Raise e, s')
    end.
Proof.
  revert s. induction l1 as [|m rest IH]; intros s; cbn [app exit_all].
  - done.
  - unfold Py.bind. destruct (__exit__ m s) as [[[]|e] s']; [apply IH|done].
Qed.

Lemma exit_entered (m : mode) (i : option mode) (s : DispatchStore U) :
  inner s !! m = Some i ->
  __exit__ m s = (Ok tt, set_SYM_FUNCTION_MODE i s).
Proof. intros Hi. unfold __exit__, Py.bind, Py.get, Py.put. by rewrite Hi. Qed.

(** Entering fresh modes one after the other: all succeed, the last one
    is active, each has its predecessor as inner link, and the links of
    the other modes are as they were. *)
Lemma enter_all_fresh (ms : list mode) (s : DispatchStore U) :
  NoDup ms ->
  (forall m, m ∈ ms -> inner s !! m = None) ->
  exists s1,
    enter_all ms s = (Ok tt, s1) /\
    SYM_FUNCTION_MODE s1 = default (SYM_FUNCTION_MODE s) (Some <$> last ms) /\
    user s1 = user s /\
    (forall m, m ∉ ms -> inner s1 !! m = inner s !! m) /\
    exists s2,
      exit_all (reverse ms) s1 = (Ok tt, s2) /\
      SYM_FUNCTION_MODE s2 = SYM_FUNCTION_MODE s /\
      user s2 = user s /\
      inner s2 = inner s1.
Proof.
  revert s. induction ms as [|m rest IH]; intros s Hnd Hfresh.
  - exists s. cbn. repeat split; try done. exists s. done.
  - apply NoDup_cons in Hnd as [Hm Hnd].
    cbn [enter_all]. unfold Py.bind at 1.
    rewrite enter_fresh by (apply Hfresh, list_elem_of_here).
    set (sa := mkDispatchStore (Some m)
                 (<[m := SYM_FUNCTION_MODE s]> (inner s)) (user s)).
    destruct (IH sa Hnd) as (s1 & Hent & Hslot & Huser & Hother & s2 & Hexit
                             & Hslot2 & Huser2 & Hinner2).
    { intros m' Hm'. cbn. rewrite lookup_insert_ne by (intros ->; done).
      apply Hfresh. by apply list_elem_of_further. }
    exists s1. split; [done|]. split; [|split; [done|split]].
    + rewrite Hslot. cbn [SYM_FUNCTION_MODE sa]. rewrite last_cons.
      by destruct (last rest).
    + intros m' Hm'. apply not_elem_of_cons in Hm' as [Hne Hm'].
      rewrite (Hother _ Hm'). cbn. by rewrite lookup_insert_ne.
    + assert (Hlink : inner s2 !! m = Some (SYM_FUNCTION_MODE s)).
      { rewrite Hinner2, (Hother _ Hm). cbn. by rewrite lookup_insert_eq. }
      exists (set_SYM_FUNCTION_MODE (SYM_FUNCTION_MODE s) s2).
      rewrite reverse_cons, exit_all_app, Hexit. cbn [exit_all].
      unfold Py.bind. rewrite (exit_entered _ _ _ Hlink). cbn [Py.ret].
      repeat split; done.
Qed.

(** X7: modes that have not been used, entered one inside the other and
    left in the opposite order, all enter and leave without error; inside
    the innermost block the last one entered is active, and after the
    outermost block the slot holds what it held before the first
    [__enter__]. *)
Theorem nested_modes_restore_slot (ms : list mode) (s : DispatchStore U) :
  NoDup ms ->
  (forall m, m ∈ ms -> inner s !! m = None) ->
  exists s1 s2,
    enter_all ms s = (Ok tt, s1) /\
    SYM_FUNCTION_MODE s1 = default (SYM_FUNCTION_MODE s) (Some <$> last ms) /\
    exit_all (reverse ms) s1 = (Ok tt, s2) /\
    SYM_FUNCTION_MODE s2 = SYM_FUNCTION_MODE s /\
    user s2 = user s.
Proof.
  intros Hnd Hfresh.
  destruct (enter_all_fresh ms s Hnd Hfresh)
    as (s1 & Hent & Hslot & _ & _ & s2 & Hexit & Hslot2 & Huser2 & _).
  by exists s1, s2.
Qed.

End NestingFacts.

Lemma nested_modes_restore_slot_witness :
  let s : DispatchStore unit := mkDispatchStore None ∅ tt in
  exists s1 s2,
    enter_all [1; 2; 3]%nat s = (Ok tt, s1) /\
    SYM_FUNCTION_MODE s1 = Some 3%nat /\
    exit_all [3; 2; 1]%nat s1 = (Ok tt, s2) /\
    SYM_FUNCTION_MODE s2 = None.
Proof.
  intros s.
  assert (Hnd : NoDup [1; 2; 3]%nat).
  { repeat (apply NoDup_cons; split;
            [rewrite ?elem_of_cons, ?elem_of_nil; intuition lia|]).
    apply NoDup_nil_2. }
  destruct (nested_modes_restore_slot [1; 2; 3]%nat s Hnd
              ltac:(intros; apply lookup_empty))
    as (s1 & s2 & Hent & Hslot & Hexit & Hslot2 & _).
  exists s1, s2. done.
Defined.

(** ** The guard log and the bindings over a session *)

Global Instance recording_preorder : PreOrder recording.
Proof.
  unfold recording. split; [by intros w|].
  intros w1 w2 w3 [??] [??]. split; by etrans.
Qed.

Global Instance reading_preorder : PreOrder reading.
Proof.
  unfold reading. split; [by intros w|].
  intros w1 w2 w3 [??] [??]. split; [by etrans|congruence].
Qed.

Lemma reading_recording w w' : reading w w' -> recording w w'.
Proof. unfold reading, recording. intros [? ->]. done. Qed.

Section SessionFacts.
Context `{sympy.Ops}.
Variable recursion_limit : nat.
Variable HAS_SYMPY : bool.

Lemma evaluating_reading w w' :
  evaluating recursion_limit w w' -> reading w w'.
Proof. unfold evaluating, reading. intros (? & ? & _). done. Qed.

Lemma run_reading (o : operation) :
  is_create_symint o = false ->
  keeps reading (run recursion_limit HAS_SYMPY o).
Proof.
  destruct o; cbn [run is_create_symint]; [done|..]; intros _;
    apply keeps_forget.
  - eapply keeps_weaken; [apply evaluating_reading|].
    apply evaluate_expr_evaluating.
  - eapply keeps_weaken; [|apply evaluate_eq_tracing].
    unfold tracing, reading. intros w w' (? & ? & _). done.
  - eapply keeps_weaken; [|apply simplify_facts_only].
    unfold facts_only, reading. intros w w' (-> & -> & _). done.
  - unfold guard_int. apply keeps_bind; [apply _| |].
    + eapply keeps_weaken; [apply evaluating_reading|].
      apply evaluate_expr_evaluating.
    + intros v. apply keeps_lift; apply _.
  - unfold __bool__. apply keeps_bind; [apply _| |].
    + eapply keeps_weaken; [apply evaluating_reading|].
      apply evaluate_expr_evaluating.
    + intros v. apply keeps_lift; apply _.
Qed.

Lemma run_recording (o : operation) :
  keeps recording (run recursion_limit HAS_SYMPY o).
Proof.
  destruct (is_create_symint o) eqn:Hc.
  - destruct o; try done. cbn [run]. apply keeps_forget.
    unfold create_symint.
    destruct (negb HAS_SYMPY); [apply keeps_raise; apply _|].
    destruct (_ || _); [apply keeps_ret; apply _|].
    apply keeps_bind; [apply _| |intros; apply keeps_ret; apply _].
    apply keeps_modify. intros w. unfold recording. cbn.
    split; [done|]. rewrite dom_insert_L. apply union_subseteq_r.
  - eapply keeps_weaken; [apply reading_recording|by apply run_reading].
Qed.

(** X8: over any sequence of operations the guard log is only appended
    to, and no symbol loses its binding; a sequence without
    [create_symint] leaves [var_to_val] exactly as it was. *)
Theorem guard_log_append_only (ops : list operation) (w : World) :
  let w' := run_all recursion_limit HAS_SYMPY ops w in
  guards (env w) `prefix_of` guards (env w') /\
  dom (var_to_val (env w)) ⊆ dom (var_to_val (env w')) /\
  (forallb (fun o => negb (is_create_symint o)) ops = true ->
   var_to_val (env w') = var_to_val (env w)).
Proof.
  cbn zeta.
  assert (Hrec : recording w (run_all recursion_limit HAS_SYMPY ops w)).
  { revert w. induction ops as [|o rest IH]; intros w; cbn [run_all].
    - reflexivity.
    - etrans; [apply run_recording|apply IH]. }
  destruct Hrec as [Hg Hv]. split; [done|]. split; [done|].
  revert w Hg Hv. induction ops as [|o rest IH]; intros w _ _ Hall;
    cbn [run_all]; [done|].
  cbn in Hall. apply andb_true_iff in Hall as [Ho Hall].
  apply negb_true_iff in Ho.
  destruct (run_reading o Ho w) as [_ Hsame].
  rewrite <- Hsame. apply IH; try done.
  - assert (Hrec : recording (run recursion_limit HAS_SYMPY o w).2
                     (run_all recursion_limit HAS_SYMPY rest
                        (run recursion_limit HAS_SYMPY o w).2)).
    { generalize (run recursion_limit HAS_SYMPY o w).2. clear.
      induction rest as [|o' rest IH]; intros w; cbn [run_all].
      - reflexivity.
      - etrans; [apply run_recording|apply IH]. }
    apply Hrec.
  - assert (Hrec : recording (run recursion_limit HAS_SYMPY o w).2
                     (run_all recursion_limit HAS_SYMPY rest
                        (run recursion_limit HAS_SYMPY o w).2)).
    { generalize (run recursion_limit HAS_SYMPY o w).2. clear.
      induction rest as [|o' rest IH]; intros w; cbn [run_all].
      - reflexivity.
      - etrans; [apply run_recording|apply IH]. }
    apply Hrec.
Qed.

(** X9: when the body of [evaluate_expr] fails, the case in which the
    source enters its handler, and the simplified expression is not an
    equality, no guard has been logged: the handler finds the guard log
    as it was. *)
Theorem evaluate_expr_failure_logs_nothing (e : expr) (w : World)
  (exc : exn) :
  (evaluate_expr recursion_limit e w).1 = Raise exc ->
  (forall e1 w1, simplify recursion_limit e w = (Ok e1, w1) ->
                 is_Eq e1 = false) ->
  guards (env (evaluate_expr recursion_limit e w).2) = guards (env w).
Proof.
  unfold evaluate_expr. destruct (_ =? _)%nat; [done|].
  pose proof (simplify_facts_only recursion_limit e w) as (Hg & _).
  destruct (simplify recursion_limit e w) as [[e1|x] w1] eqn:Hs.
  2:{ rewrite (bind_raise _ _ _ _ _ Hs). by intros _ _. }
  rewrite (bind_ok _ _ _ _ _ Hs). cbn in Hg.
  intros Hraise Hneq. specialize (Hneq e1 w1 eq_refl). revert Hraise.
  pose proof (maybe_evaluate_static_env recursion_limit e1 w1) as Henv.
  destruct (maybe_evaluate_static recursion_limit e1 w1) as [[[v|]|x] w2]
    eqn:Hm; cbn in Henv.
  - by rewrite (bind_ok _ _ _ _ _ Hm).
  - rewrite (bind_ok _ _ _ _ _ Hm), Hneq.
    pose proof (size_hint_same_env recursion_limit e1 w2) as [Henv2 _].
    destruct (size_hint recursion_limit e1 w2) as [[v|x] w3] eqn:Hh;
      cbn in Henv2.
    + by rewrite (bind_ok _ _ _ _ _ Hh).
    + rewrite (bind_raise _ _ _ _ _ Hh). intros _. cbn.
      by rewrite Henv2, Henv.
  - rewrite (bind_raise _ _ _ _ _ Hm). intros _. cbn. by rewrite Henv.
Qed.

End SessionFacts.

Lemma evaluate_expr_failure_logs_nothing_witness :
  let out := evaluate_expr (H := Fragment.ops) Fragment.recursion_limit
               Fragment.s0 World_init in
  out.1 = Raise (AssertionError no_value) /\ guards (env out.2) = [].
Proof.
  intros out.
  assert (Hraise : out.1 = Raise (AssertionError no_value))
    by (vm_compute; reflexivity).
  split; [exact Hraise|].
  apply (evaluate_expr_failure_logs_nothing (H := Fragment.ops)
           Fragment.recursion_limit Fragment.s0 World_init _ Hraise).
  intros e1 w1 Hs.
  assert (He1 : (simplify (H := Fragment.ops) Fragment.recursion_limit
                   Fragment.s0 World_init).1 = Ok Fragment.s0)
    by (vm_compute; reflexivity).
  rewrite Hs in He1. cbn in He1. by injection He1 as ->.
Defined.

(** ** The memo tables *)

Section MemoFacts.
Context `{sympy.Ops}.
Variable recursion_limit : nat.
Variable HAS_SYMPY : bool.

Lemma size_hint_body_world (e : expr) (w : World) :
  (size_hint_body recursion_limit e w).2 = w.
Proof.
  unfold size_hint_body, Py.bind, Py.get, Py.lift.
  destruct (xreplace _ _ _); [|done]. by destruct (_ && _).
Qed.

Lemma size_hint_stores (e v : expr) (w w1 : World) :
  size_hint recursion_limit e w = (Ok v, w1) ->
  size_hint_cache w1 !! e = Some v.
Proof.
  unfold size_hint. unfold Py.bind at 1. cbn [Py.get].
  destruct (size_hint_cache w !! e) as [v'|] eqn:Hc.
  - intros [= <- <-]. done.
  - unfold Py.bind, Py.modify, Py.ret.
    pose proof (size_hint_body_world e w) as Hw.
    destruct (size_hint_body recursion_limit e w) as [[v'|x] w'];
      cbn in Hw; [|done].
    intros [= <- <-]. cbn. by rewrite lookup_insert_eq.
Qed.

(** X10: a size hint, once computed, is what [size_hint] answers from
    then on: after [size_hint(e)] returned [v], binding any symbol anew
    with [create_symint] does not change the answer for [e]. *)
Theorem size_hint_is_frozen (e v : expr) (w w1 : World) (name : string)
  (val : Z) :
  size_hint recursion_limit e w = (Ok v, w1) ->
  let w2 := (create_symint HAS_SYMPY name val w1).2 in
  size_hint recursion_limit e w2 = (Ok v, w2).
Proof.
  intros Hs. apply size_hint_stores in Hs. cbn zeta.
  assert (Hc : size_hint_cache (create_symint HAS_SYMPY name val w1).2
               = size_hint_cache w1).
  { unfold create_symint. destruct (negb HAS_SYMPY); [done|].
    by destruct (_ || _). }
  unfold size_hint. unfold Py.bind at 1. cbn [Py.get].
  by rewrite Hc, Hs.
Qed.

(** X11: [maybe_evaluate_static], asked the same expression twice in a
    row, gives the same outcome the second time and then leaves the world
    as it found it. *)
Theorem maybe_evaluate_static_twice (e : expr) (w w1 : World)
  (r : result (option expr)) :
  maybe_evaluate_static recursion_limit e w = (r, w1) ->
  maybe_evaluate_static recursion_limit e w1 = (r, w1).
Proof.
  unfold maybe_evaluate_static. intros Hfirst.
  rewrite lru_cache_unfold in Hfirst. cbn zeta in Hfirst.
  set (key := _get_key (env w)) in *.
  set (w0 := if decide (prior_key (static_cache w) = Some key)
             then w else _) in Hfirst.
  assert (Hw0 : prior_key (static_cache w0) = Some key /\ env w0 = env w).
  { subst w0. by case_decide. }
  destruct Hw0 as [Hprior Henv]. clearbody w0.
  rewrite maybe_evaluate_static_body_pure in Hfirst.
  assert (Hagain : forall w2 : World,
    prior_key (static_cache w2) = Some key -> env w2 = env w ->
    _lru_cache static_cache set_static_cache
      (maybe_evaluate_static_body recursion_limit) e w2 =
      match fn_cache (static_cache w2) !! e with
      | Some v => (Ok v, w2)
      | None =>
          match static_outcome recursion_limit e with
          | Ok v =>
              (Ok v,
               set_static_cache
                 (mkLru (prior_key (static_cache w2))
                    (<[e := v]> (fn_cache (static_cache w2)))) w2)
          | Raise x => (Raise x, w2)
          end
      end).
  { intros w2 Hp He. rewrite lru_cache_unfold. cbn zeta.
    rewrite He. fold key. rewrite decide_True by done.
    by rewrite maybe_evaluate_static_body_pure. }
  destruct (fn_cache (static_cache w0) !! e) as [v|] eqn:Hhit.
  - injection Hfirst as <- <-. by rewrite Hagain, Hhit.
  - destruct (static_outcome recursion_limit e) as [v|x] eqn:Hout.
    + injection Hfirst as <- <-. rewrite Hagain by done.
      cbn. by rewrite lookup_insert_eq.
    + injection Hfirst as <- <-. by rewrite Hagain, Hhit.
Qed.

(** The relation of a function that leaves the memo table of [simplify]
    alone. *)
Local Instance simplify_cache_kept :
  PreOrder (fun w w' : World => simplify_cache w' = simplify_cache w).
Proof. split; [by intros w|]. intros w1 w2 w3 ??. congruence. Qed.

Lemma simplify_body_keeps_table (e : expr) :
  keeps (fun w w' => simplify_cache w' = simplify_cache w)
    (simplify_body recursion_limit e).
Proof.
  set (R := fun w w' : World => simplify_cache w' = simplify_cache w).
  assert (Hfind : forall a, keeps R (find a)).
  { intros a w0. rewrite find_unfold.
    destruct (find_root _ _ a); [|done]. by destruct (compress _ _ _ a). }
  assert (Hall : forall l, keeps R (find_all l)).
  { induction l as [|x rest IH]; cbn [find_all]; [apply keeps_ret; apply _|].
    apply keeps_bind; [apply _|apply Hfind|]. intros r.
    apply keeps_bind; [apply _|apply IH|]. intros m.
    apply keeps_ret; apply _. }
  assert (Hrep : forall a, keeps R (replace recursion_limit a)).
  { intros a. unfold replace. apply keeps_bind; [apply _|apply Hall|].
    intros rule. apply keeps_lift; apply _. }
  assert (Href : forall l acc, keeps R (refresh recursion_limit l acc)).
  { induction l as [|x rest IH]; intros acc; cbn [refresh];
      [apply keeps_ret; apply _|].
    apply keeps_bind; [apply _|apply Hrep|]. intros r. apply IH. }
  unfold simplify_body. apply keeps_bind; [apply _|apply Hrep|].
  intros r. case_decide; [|apply keeps_ret; apply _].
  apply keeps_bind; [apply _| |].
  - unfold update_divisible. apply keeps_lru_cache; [apply _|by intros c w0|].
    unfold update_divisible_body.
    apply keeps_bind; [apply _|apply keeps_get; apply _|]. intros w0.
    apply keeps_bind; [apply _|apply Href|]. intros d.
    apply keeps_modify. by intros w1.
  - intros _. apply keeps_bind; [apply _| |intros; apply keeps_ret; apply _].
    eapply keeps_weaken; [|apply rewrite_divisible_pure]. by intros w0 w0' <-.
Qed.

(** X12: when [simplify(e)] returned and left the fingerprint (the two
    counts of [_get_key]) as it was, the next [simplify(e)] answers from
    the table: the same expression, and the world untouched. *)
Theorem simplify_twice (e v : expr) (w w1 : World) :
  simplify recursion_limit e w = (Ok v, w1) ->
  _get_key (env w1) = _get_key (env w) ->
  simplify recursion_limit e w1 = (Ok v, w1).
Proof.
  unfold simplify. rewrite !lru_cache_unfold. cbn zeta.
  set (key := _get_key (env w)).
  set (w0 := if decide (prior_key (simplify_cache w) = Some key)
             then w else _).
  assert (Hw0 : prior_key (simplify_cache w0) = Some key).
  { subst w0. by case_decide. }
  destruct (fn_cache (simplify_cache w0) !! e) as [v'|] eqn:Hhit.
  - intros [= <- <-] Hkey. rewrite Hkey. fold key.
    rewrite decide_True by done. by rewrite Hhit.
  - pose proof (simplify_body_keeps_table e w0) as Hsame.
    destruct (simplify_body recursion_limit e w0) as [[v'|x] wb]; [|done].
    cbn in Hsame. intros [= <- <-] Hkey. rewrite Hkey. fold key.
    cbn. rewrite Hsame, Hw0. rewrite decide_True by done.
    cbn. by rewrite lookup_insert_eq.
Qed.

Lemma refresh_members (terms : list expr) (acc d : gset expr) (w w' : World) :
  refresh recursion_limit terms acc w = (Ok d, w') ->
  (forall x, x ∈ d -> x ∈ acc \/ free_symbols x ≠ []) /\
  (size d <= size acc + length terms)%nat.
Proof.
  revert acc w. induction terms as [|a rest IH]; intros acc w; cbn [refresh].
  - intros [= <- <-]. split; [by left|]. cbn. lia.
  - unfold Py.bind at 1.
    destruct (replace recursion_limit a w) as [[r|x] w1]; [|done].
    intros Hrest. destruct (IH _ _ Hrest) as [Hmem Hsize].
    case_decide as Hfree.
    + split.
      * intros x Hx. destruct (Hmem x Hx) as [Hin|?]; [|by right].
        apply elem_of_union in Hin as [?|Hin]; [by left|].
        apply elem_of_singleton in Hin as ->. right.
        intros Hnil. rewrite Hnil in Hfree. cbn in Hfree. lia.
      * etrans; [exact Hsize|]. cbn [length].
        pose proof (size_union_alt acc {[sympy.expand r]}) as Hu.
        pose proof (subseteq_size ({[sympy.expand r]} ∖ acc)
                      {[sympy.expand r]}
                      ltac:(by apply subseteq_difference_l)) as Hd.
        rewrite size_singleton in Hd. lia.
    + split; [done|]. cbn [length]. lia.
Qed.


(** X14: without sympy, [create_shapes_for_args] raises as soon as it
    meets a tensor with a dimension, of whatever size, and binds nothing;
    arguments whose tensors have no dimension pass, each such tensor
    giving an empty list of sizes. *)
Theorem create_shapes_for_args_without_sympy (args : pytree) (w : World) :
  create_shapes_for_args false args w =
    if existsb has_dimension (tree_flatten args)
    then (Raise (RuntimeError
                   "Need sympy installed to create symbolic shapes"), w)
    else (Ok (pass_through <$> tree_flatten args), w).
Proof.
  unfold create_shapes_for_args. generalize (tree_flatten args) 0%nat.
  intros leaves. induction leaves as [|x rest IH]; intros arg_cnt; [done|].
  destruct x as [t|v]; cbn [create_shapes existsb has_dimension].
  - destruct (shape t) as [|sz sizes] eqn:Hshape; cbn.
    + unfold Py.bind. cbn. rewrite IH.
      by destruct (existsb has_dimension rest).
    + done.
  - unfold Py.bind. rewrite IH. cbn.
    by destruct (existsb has_dimension rest).
Qed.

End MemoFacts.

Lemma size_hint_is_frozen_witness :
  let w := (create_symint true "s0" 6 World_init).2 in
  let w1 := (size_hint (H := Fragment.ops) Fragment.recursion_limit
               Fragment.s0 w).2 in
  let w2 := (create_symint true "s0" 10 w1).2 in
  var_to_val (env w2) !! Fragment.s0 = Some 10 /\
  size_hint (H := Fragment.ops) Fragment.recursion_limit Fragment.s0 w2
  = (Ok (Integer 6), w2).
Proof.
  intros w w1 w2. split; [vm_compute; reflexivity|].
  apply (size_hint_is_frozen (H := Fragment.ops) Fragment.recursion_limit true
           Fragment.s0 (Integer 6) w w1 "s0" 10).
  vm_compute. reflexivity.
Defined.

Lemma maybe_evaluate_static_twice_witness :
  let e := App HGt Fragment.s0 (Integer 1) in
  let out := maybe_evaluate_static (H := Fragment.ops)
               Fragment.recursion_limit e World_init in
  out.1 = Ok (Some (BooleanAtom true)) /\
  maybe_evaluate_static (H := Fragment.ops) Fragment.recursion_limit e out.2
  = (Ok (Some (BooleanAtom true)), out.2).
Proof.
  intros e out.
  assert (Hout : out = (Ok (Some (BooleanAtom true)), out.2))
    by (vm_compute; reflexivity).
  split; [by rewrite Hout|].
  exact (maybe_evaluate_static_twice (H := Fragment.ops)
           Fragment.recursion_limit e World_init out.2 _ Hout).
Defined.

Lemma simplify_twice_witness :
  let out := simplify (H := Fragment.ops) Fragment.recursion_limit
               Session.halved World_init in
  out.1 = Ok Session.halved /\
  simplify (H := Fragment.ops) Fragment.recursion_limit Session.halved out.2
  = (Ok Session.halved, out.2).
Proof.
  intros out.
  assert (Hout : out = (Ok Session.halved, out.2))
    by (vm_compute; reflexivity).
  split; [by rewrite Hout|].
  apply (simplify_twice (H := Fragment.ops) Fragment.recursion_limit
           Session.halved Session.halved World_init out.2 Hout).
  vm_compute. reflexivity.
Defined.


(** ** A symbol through the evaluator *)

Section SymbolFacts.
Context `{sympy.Ops}.
Variable recursion_limit : nat.

Lemma find_not_key (a : expr) (w : World) :
  replacements (env w) !! a = None -> find a w = (Ok a, w).
Proof.
  intros Ha. rewrite find_unfold.
  destruct w as [[g v r d] c1 c2 c3 c4]. cbn in *.
  destruct (size r); cbn; by rewrite Ha.
Qed.

Lemma free_symbols_symbol (name : string) :
  free_symbols (Symbol name) = [Symbol name].
Proof. reflexivity. Qed.

Lemma simplify_body_symbol (name : string) (w : World) :
  replacements (env w) !! Symbol name = None ->
  sympy.expand (Symbol name) = Symbol name ->
  simplify_body recursion_limit (Symbol name) w = (Ok (Symbol name), w).
Proof.
  intros Hrepl Hexp. unfold simplify_body, replace.
  rewrite free_symbols_symbol. cbn [find_all].
  unfold Py.bind at 1 2 3.
  rewrite (find_not_key _ _ Hrepl). cbn [Py.ret].
  unfold Py.bind at 1. cbn [Py.ret Py.lift].
  unfold xreplace. cbn [_xreplace]. rewrite lookup_insert_eq. cbn [Py.rbind fst].
  rewrite Hexp. done.
Qed.

Lemma simplify_symbol (name : string) (w : World) :
  replacements (env w) !! Symbol name = None ->
  fn_cache (simplify_cache w) !! Symbol name = None ->
  sympy.expand (Symbol name) = Symbol name ->
  exists w1,
    simplify recursion_limit (Symbol name) w = (Ok (Symbol name), w1) /\
    tables_only w w1 /\ static_cache w1 = static_cache w.
Proof.
  intros Hrepl Hmiss Hexp. unfold simplify. rewrite lru_cache_unfold.
  cbn zeta.
  set (w0 := if decide _ then w else _).
  assert (Hw0 : tables_only w w0 /\ static_cache w0 = static_cache w /\
                fn_cache (simplify_cache w0) !! Symbol name = None).
  { subst w0. case_decide; [done|]. by repeat split. }
  destruct Hw0 as ((Henv & Hsh & Hup) & Hst & Hmiss0). clearbody w0.
  rewrite Hmiss0, simplify_body_symbol by (by rewrite ?Henv).
  eexists. split; [done|]. by repeat split.
Qed.

Lemma maybe_evaluate_static_symbol (name : string) (w : World) :
  static_coherent recursion_limit w ->
  free_symbols (sympy.expand (placeholder 0)) ≠ [] ->
  exists w1,
    maybe_evaluate_static recursion_limit (Symbol name) w = (Ok None, w1) /\
    tables_only w w1.
Proof.
  intros Hco Hph.
  assert (Hout : static_outcome recursion_limit (Symbol name) = Ok None).
  { unfold static_outcome. rewrite free_symbols_symbol. cbn [imap list_to_map].
    unfold xreplace. cbn [_xreplace].
    rewrite list_to_map_cons, lookup_insert_eq. cbn [Py.rbind fst].
    destruct (free_symbols (sympy.expand (placeholder 0))); done. }
  unfold maybe_evaluate_static. rewrite lru_cache_unfold. cbn zeta.
  set (w0 := if decide _ then w else _).
  assert (Hw0 : tables_only w w0 /\
                forall r, fn_cache (static_cache w0) !! Symbol name = Some r ->
                          r = None).
  { subst w0. case_decide.
    - split; [done|]. intros r Hr. apply Hco in Hr. congruence.
    - split; [done|]. intros r. cbn. by rewrite lookup_empty. }
  destruct Hw0 as [Htab Hhit]. clearbody w0.
  destruct (fn_cache (static_cache w0) !! Symbol name) as [r|] eqn:Hr.
  - rewrite (Hhit r eq_refl). by exists w0.
  - rewrite maybe_evaluate_static_body_pure, Hout. eexists. split; [done|].
    destruct Htab as (? & ? & ?). by repeat split.
Qed.

(** On a symbol without replacement, [evaluate_expr] comes down to its
    last three lines: the size hint, the guard, the return. *)
Lemma evaluate_expr_symbol (name : string) (w : World) :
  replacements (env w) !! Symbol name = None ->
  fn_cache (simplify_cache w) !! Symbol name = None ->
  static_coherent recursion_limit w ->
  sympy.expand (Symbol name) = Symbol name ->
  free_symbols (sympy.expand (placeholder 0)) ≠ [] ->
  exists wm,
    tables_only w wm /\
    evaluate_expr recursion_limit (Symbol name) w =
      (let* v := size_hint recursion_limit (Symbol name) in
       append_guard (Symbol name) v >> ret v) wm.
Proof.
  intros Hrepl Hmiss Hco Hexp Hph.
  destruct (simplify_symbol name w Hrepl Hmiss Hexp)
    as (w1 & Hs & (Henv1 & Hsh1 & Hup1) & Hst1).
  assert (Hco1 : static_coherent recursion_limit w1).
  { unfold static_coherent. by rewrite Hst1. }
  destruct (maybe_evaluate_static_symbol name w1 Hco1 Hph)
    as (w2 & Hm & (Henv2 & Hsh2 & Hup2)).
  exists w2. split.
  { repeat split; congruence. }
  unfold evaluate_expr. rewrite free_symbols_symbol. cbn [length Nat.eqb].
  rewrite (bind_ok _ _ _ _ _ Hs), (bind_ok _ _ _ _ _ Hm). done.
Qed.

Lemma size_hint_symbol (name : string) (w : World) :
  size_hint_cache w !! Symbol name = None ->
  sympy.expand (Symbol name) = Symbol name ->
  size_hint recursion_limit (Symbol name) w =
    match var_to_val (env w) !! Symbol name with
    | Some val =>
        (Ok (Integer val),
         set_size_hint_cache
           (<[Symbol name := Integer val]> (size_hint_cache w)) w)
    | None => (Raise (AssertionError no_value), w)
    end.
Proof.
  intros Hmiss Hexp. unfold size_hint. unfold Py.bind at 1. cbn [Py.get].
  rewrite Hmiss. unfold size_hint_body.
  unfold Py.bind, Py.get, Py.lift, Py.modify, Py.ret, Py.raise.
  rewrite Hexp. unfold xreplace. cbn [_xreplace]. rewrite lookup_fmap.
  by destruct (var_to_val (env w) !! Symbol name).
Qed.

(** X15: a symbol just created for a size other than 0 and 1, not yet
    replaced and not yet in the memo tables, reads back through
    [guard_int] as that size; the call logs the one guard
    [(symbol, size)], and the size hint of the symbol is the size.  The
    substrate is asked that a symbol expands to itself and that the
    placeholder [shape_0 + 1] keeps a free symbol. *)
Theorem guard_int_of_fresh_symbol (name : string) (val : Z) (w0 : World) :
  val ≠ 0 -> val ≠ 1 ->
  replacements (env w0) !! Symbol name = None ->
  fn_cache (simplify_cache w0) !! Symbol name = None ->
  static_coherent recursion_limit w0 ->
  size_hint_cache w0 !! Symbol name = None ->
  sympy.expand (Symbol name) = Symbol name ->
  free_symbols (sympy.expand (placeholder 0)) ≠ [] ->
  let p := mkPySymInt (Symbol name) self_env None in
  exists w1 w2,
    create_symint true name val w0 = (Ok (VSymInt p), w1) /\
    var_to_val (env w1) !! Symbol name = Some val /\
    guard_int recursion_limit p w1 = (Ok val, w2) /\
    guards (env w2) = guards (env w0) ++ [(Symbol name, Integer val)] /\
    size_hint recursion_limit (Symbol name) w2 = (Ok (Integer val), w2).
Proof.
  intros Hz Ho Hrepl Hmiss Hco Hsh Hexp Hph. cbn zeta.
  apply Z.eqb_neq in Hz, Ho.
  set (w1 := set_env (set_var_to_val (<[Symbol name := val]>
                                        (var_to_val (env w0))) (env w0)) w0).
  assert (Hcreate : create_symint true name val w0
                    = (Ok (VSymInt (mkPySymInt (Symbol name) self_env None)),
                       w1)).
  { unfold create_symint. cbn [negb]. by rewrite Hz, Ho. }
  assert (Hval : var_to_val (env w1) !! Symbol name = Some val).
  { cbn. by rewrite lookup_insert_eq. }
  destruct (evaluate_expr_symbol name w1 Hrepl Hmiss Hco Hexp Hph)
    as (wm & (Henv & Hshm & _) & Heval).
  assert (Hhint : size_hint recursion_limit (Symbol name) wm
                  = (Ok (Integer val),
                     set_size_hint_cache
                       (<[Symbol name := Integer val]> (size_hint_cache wm))
                       wm)).
  { rewrite size_hint_symbol by (by rewrite ?Hshm).
    by rewrite Henv, Hval. }
  eexists w1, _. split; [exact Hcreate|]. split; [exact Hval|].
  unfold guard_int. cbn [expr_of]. unfold Py.bind at 1. rewrite Heval.
  rewrite (bind_ok _ _ _ _ _ Hhint). unfold append_guard.
  unfold Py.bind, Py.modify, Py.ret, Py.lift. cbn [int_of].
  split; [reflexivity|]. split.
  - cbn. by rewrite Henv.
  - unfold size_hint. unfold Py.bind at 1. cbn. by rewrite lookup_insert_eq.
Qed.

(** X16: on a symbol that has no binding in [var_to_val], the body of
    [evaluate_expr] fails on the assertion of [size_hint], the case in
    which the source enters its handler: no guard has been logged and no
    hint has been remembered. *)
Theorem evaluate_expr_of_unbound_symbol (name : string) (w : World) :
  var_to_val (env w) !! Symbol name = None ->
  replacements (env w) !! Symbol name = None ->
  fn_cache (simplify_cache w) !! Symbol name = None ->
  static_coherent recursion_limit w ->
  size_hint_cache w !! Symbol name = None ->
  sympy.expand (Symbol name) = Symbol name ->
  free_symbols (sympy.expand (placeholder 0)) ≠ [] ->
  exists w',
    evaluate_expr recursion_limit (Symbol name) w
    = (Raise (AssertionError no_value), w') /\
    env w' = env w /\ size_hint_cache w' = size_hint_cache w.
Proof.
  intros Hval Hrepl Hmiss Hco Hsh Hexp Hph.
  destruct (evaluate_expr_symbol name w Hrepl Hmiss Hco Hexp Hph)
    as (wm & (Henv & Hshm & _) & Heval).
  exists wm. split; [|done]. rewrite Heval.
  assert (Hhint : size_hint recursion_limit (Symbol name) wm
                  = (Raise (AssertionError no_value), wm)).
  { rewrite size_hint_symbol by (by rewrite ?Hshm). by rewrite Henv, Hval. }
  by rewrite (bind_raise _ _ _ _ _ Hhint).
Qed.

End SymbolFacts.

Lemma guard_int_of_fresh_symbol_witness :
  let p := mkPySymInt Fragment.s0 self_env None in
  exists w1 w2,
    create_symint true "s0" 6 World_init = (Ok (VSymInt p), w1) /\
    var_to_val (env w1) !! Fragment.s0 = Some 6 /\
    guard_int (H := Fragment.ops) Fragment.recursion_limit p w1 = (Ok 6, w2) /\
    guards (env w2) = [(Fragment.s0, Integer 6)] /\
    size_hint (H := Fragment.ops) Fragment.recursion_limit Fragment.s0 w2
    = (Ok (Integer 6), w2).
Proof.
  apply (guard_int_of_fresh_symbol (H := Fragment.ops)
           Fragment.recursion_limit "s0" 6 World_init).
  - lia.
  - lia.
  - reflexivity.
  - reflexivity.
  - apply World_init_static_coherent.
  - reflexivity.
  - vm_compute. reflexivity.
  - vm_compute. discriminate.
Defined.

Lemma evaluate_expr_of_unbound_symbol_witness :
  exists w',
    evaluate_expr (H := Fragment.ops) Fragment.recursion_limit Fragment.s0
      World_init
    = (Raise (AssertionError no_value), w') /\
    env w' = env World_init /\
    size_hint_cache w' = size_hint_cache World_init.
Proof.
  apply (evaluate_expr_of_unbound_symbol (H := Fragment.ops)
           Fragment.recursion_limit "s0" World_init).
  - reflexivity.
  - reflexivity.
  - reflexivity.
  - apply World_init_static_coherent.
  - reflexivity.
  - vm_compute. reflexivity.
  - vm_compute. discriminate.
Defined.
